(** * imq-rpc: the RPC client ([IMQClient.ts], [IMQDelay.ts])

    A shallow embedding of the client side of imq-rpc: the delay value
    object, the call-correlation code of [IMQClient] (remoteCall, the
    message handler installed by start, destroy), the description fetch
    and the string functions of the client generator.

    Strings are sequences of 8-bit code units (the Latin-1 range of the
    UTF-16 code units of the source); numbers are IEEE 754 binary64 values
    ([spec_float] at precision 53, maximal exponent 1024). *)

From Stdlib Require Import ZArith List String Ascii Bool Lia SpecFloat.
From stdpp Require Import gmap strings list fin_maps pretty.

Local Open Scope string_scope.

(** ** String primitives of the host language *)

Module Js.

(** The double quote character, for messages that contain it. *)
Definition dquote : string := String (ascii_of_nat 34) "".

(** [/^p/.test(s)] for a literal [p]. *)
Fixpoint startsWith (p s : string) : bool :=
  match p, s with
  | "", _ => true
  | String a p', String b s' => if Ascii.eqb a b then startsWith p' s' else false
  | String _ _, "" => false
  end.

(** The class [\s] on code units below 256: TAB, LF, VT, FF, CR, SPACE
    and NBSP. *)
Definition isSpace (c : ascii) : bool :=
  let n := nat_of_ascii c in
  (((9 <=? n) && (n <=? 13)) || (n =? 32) || (n =? 160))%nat.

Definition headIsSpace (s : string) : bool :=
  match s with
  | String c _ => isSpace c
  | "" => false
  end.

Definition LF : ascii := ascii_of_nat 10.
Definition CR : ascii := ascii_of_nat 13.

(** [s.replace(/\r?\n/g, ' ')]: every line break, with the carriage
    return before it when there is one, becomes one space. *)
Fixpoint replaceNewlines (s : string) : string :=
  match s with
  | "" => ""
  | String c s' =>
      if Ascii.eqb c LF then String " " (replaceNewlines s')
      else if Ascii.eqb c CR then
        match s' with
        | String d s'' =>
            if Ascii.eqb d LF then String " " (replaceNewlines s'')
            else String c (replaceNewlines s')
        | "" => String c ""
        end
      else String c (replaceNewlines s')
  end.

(** [s.replace(/\s{2,}/g, ' ')]: every maximal run of two or more white
    space characters becomes one space; a lone white space character is
    kept as it is.  [inRun] says that the scan is inside a run whose
    replacement has been emitted already. *)
Fixpoint collapseSpaces (inRun : bool) (s : string) : string :=
  match s with
  | "" => ""
  | String c s' =>
      if inRun then
        if isSpace c then collapseSpaces true s'
        else String c (collapseSpaces false s')
      else if isSpace c && headIsSpace s' then String " " (collapseSpaces true s')
      else String c (collapseSpaces false s')
  end.

(** [String.prototype.toLowerCase] on one code unit below 256: A-Z and
    the upper-case letters of Latin-1 (U+00C0-U+00DE without U+00D7). *)
Definition toLowerCase (c : ascii) : ascii :=
  let n := nat_of_ascii c in
  if (((65 <=? n) && (n <=? 90))
      || ((192 <=? n) && (n <=? 222) && negb (n =? 215)))%nat
  then ascii_of_nat (n + 32) else c.

(** [s.charAt(0)] (the empty string when [s] is empty) and [s.substr(1)]. *)
Definition charAt0 (s : string) : string :=
  match s with
  | String c _ => String c ""
  | "" => ""
  end.

Definition substr1 (s : string) : string :=
  match s with
  | String _ s' => s'
  | "" => ""
  end.

Definition mapString (f : ascii -> ascii) : string -> string :=
  fix go s :=
    match s with
    | "" => ""
    | String c s' => String (f c) (go s')
    end.

End Js.

(** ** The client generator: names and types *)

Module Generator.

(** [serviceName.replace(/Service$|$/, 'Client')].  The regular
    expression is tried at each position from the left: the first
    alternative matches when what remains is exactly [Service], the
    second when nothing remains.  The first match is replaced. *)
Fixpoint replaceServiceSuffix (s : string) : string :=
  if String.eqb s "Service" then "Client"
  else
    match s with
    | "" => "Client"
    | String c s' => String c (replaceServiceSuffix s')
    end.

Definition clientName (serviceName : string) : string :=
  replaceServiceSuffix serviceName.

Definition namespaceName (serviceName : string) : string :=
  Js.mapString Js.toLowerCase (Js.charAt0 serviceName) ++ Js.substr1 serviceName.

(** A name with its leading character in lower case. *)
Definition lowerFirst (s : string) : string :=
  match s with
  | "" => ""
  | String c rest => String (Js.toLowerCase c) rest
  end.

(** The two lines of the generated source that carry the names. *)
Definition namespaceLine (serviceName : string) : string :=
  "export namespace " ++ namespaceName serviceName ++ " {".

Definition classLine (serviceName : string) : string :=
  "    export class " ++ clientName serviceName ++ " extends IMQClient {".

(** [promisedType]: wrap unless the text begins with [Promise<]. *)
Definition promisedType (typedef : string) : string :=
  if negb (Js.startsWith "Promise<" typedef)
  then "Promise<" ++ typedef ++ ">"
  else typedef.

(** The lazy group [([\s\S]+?)] followed by [>$]: take one character,
    then stop as soon as what remains is exactly [>], else take one
    more. *)
Fixpoint lazyUntilFinalGt (rest : string) : option string :=
  match rest with
  | "" => None
  | String c rest' =>
      if String.eqb rest' ">" then Some (String c "")
      else option_map (String c) (lazyUntilFinalGt rest')
  end.

Fixpoint stripPrefix (p s : string) : option string :=
  match p, s with
  | "", _ => Some s
  | String a p', String b s' => if Ascii.eqb a b then stripPrefix p' s' else None
  | String _ _, "" => None
  end.

(** [cleanType]: [typedef.replace(/^Promise<([\s\S]+?)>$/, '$1')]. *)
Definition cleanType (typedef : string) : string :=
  match stripPrefix "Promise<" typedef with
  | Some rest =>
      match lazyUntilFinalGt rest with
      | Some inner => inner
      | None => typedef
      end
  | None => typedef
  end.

(** The local [retType] of the generator loop. *)
Definition retTypeOf (tsType : string) : string :=
  let retType := Js.collapseSpaces false (Js.replaceNewlines tsType) in
  if String.eqb retType "Promise" then "Promise<any>" else retType.

(** The return type written after the parameter list, and the type
    argument of the [remoteCall] in the body. *)
Definition generatedReturnType (tsType : string) : string :=
  promisedType (retTypeOf tsType).


(** The number of [Promise<...>] layers around a type text, counted by
    unwrapping with [cleanType] until it changes nothing. *)
Fixpoint wrapDepthFuel (fuel : nat) (t : string) : nat :=
  match fuel with
  | O => 0
  | S fuel' =>
      match stripPrefix "Promise<" t with
      | Some rest =>
          match lazyUntilFinalGt rest with
          | Some inner => S (wrapDepthFuel fuel' inner)
          | None => 0
          end
      | None => 0
      end
  end.

Definition wrapDepth (t : string) : nat := wrapDepthFuel (String.length t) t.


(** *** Method signatures *)

(** Modelled from the spec: the description types are declared outside
    the sources at hand; an argument has the fields of the object the
    generator pushes, a method has its arguments, its documentation and
    the type text of what it returns. *)
Record ArgDescription := mkArg {
  arg_description : string;
  arg_name : string;
  arg_type : string;
  arg_tsType : string;
  arg_isOptional : bool
}.

Record MethodDescription := mkMethod {
  arguments : list ArgDescription;
  description : string;
  returns_tsType : string
}.

Definition delayArg : ArgDescription :=
  mkArg ("if passed the method will be called with " ++
         "the specified delay over message queue")
        "delay" "IMQDelay" "IMQDelay" true.

(** The argument list after the generator has looked at its last
    element: [lastArg] is undefined, hence falsy, for an empty list. *)
Definition withDelay (args : list ArgDescription) : list ArgDescription :=
  match last args with
  | Some lastArg =>
      if negb (String.eqb (arg_type lastArg) "IMQDelay")
      then (args ++ [delayArg])%list
      else args
  | None => args
  end.

(** The parameter list between the parentheses. *)
Fixpoint renderParams (args : list ArgDescription) : string :=
  match args with
  | [] => ""
  | arg :: rest =>
      arg_name arg ++ (if arg_isOptional arg then "?" else "") ++
      ": " ++ Js.collapseSpaces false (arg_tsType arg) ++
      match rest with [] => "" | _ :: _ => ", " end ++
      renderParams rest
  end.

Definition nl : string := String Js.LF "".

(** The head of a generated method and its body; the documentation
    comment before them is left out. *)
Definition methodHead (methodName : string) (m : MethodDescription) : string :=
  "        public async " ++ methodName ++ "(" ++
  renderParams (withDelay (arguments m)) ++
  "): " ++ promisedType (retTypeOf (returns_tsType m)) ++ " {" ++ nl.

Definition methodBody (m : MethodDescription) : string :=
  "            return await this.remoteCall<" ++
  cleanType (retTypeOf (returns_tsType m)) ++ ">(...arguments);" ++
  nl ++ "        }" ++ nl ++ nl.

(** The loop over [Object.keys(methods)], given in key order: every
    method but [describe], with the parameters it is generated with. *)
Definition generatedMethods (methods : list (string * MethodDescription))
  : list (string * list ArgDescription) :=
  List.map (fun nm => (fst nm, withDelay (arguments (snd nm))))
    (List.filter (fun nm => negb (String.eqb (fst nm) "describe")) methods).

(** The method [add(a: number, b: number)] of the specification, and a
    method declared without arguments. *)
Definition addMethod : MethodDescription :=
  mkMethod [mkArg "" "a" "number" "number" false;
            mkArg "" "b" "number" "number" false]
           "" "Promise<number>".

Definition pingMethod : MethodDescription := mkMethod [] "" "string".

End Generator.

(** ** IMQDelay *)

Module Delay.

(** A [number] of the source: a binary64 value. *)
Abbreviation number := spec_float.

Definition prec : Z := 53.
Definition emax : Z := 1024.

(** The literal of an integer [z]. *)
Definition ofZ (z : Z) : number := binary_normalize prec emax z 0 false.

Definition mul (x y : number) : number := SFmul prec emax x y.

Definition zero : number := S754_zero false.
Definition NaN : number := S754_nan.
Definition Infinity : number := S754_infinity false.

(** A value the source can hold: the mantissa and exponent are in range. *)
Definition valid (x : number) : bool := valid_binary prec emax x.

(** The unit tags ['ms'], ['s'], ['m'], ['h'] and ['d']. *)
Inductive Unit := U_ms | U_s | U_m | U_h | U_d.

Record IMQDelay := mkDelay { timer : number; unit : Unit }.

(** The getter [ms]. *)
Definition get_ms (dl : IMQDelay) : number :=
  match unit dl with
  | U_ms => timer dl
  | U_s => mul (timer dl) (ofZ 1000)
  | U_m => mul (timer dl) (ofZ 60000)
  | U_h => mul (timer dl) (ofZ 3600000)
  | U_d => mul (timer dl) (ofZ 86400000)
  end.

(** The global functions [isFinite] and [isNaN], and [x < y]. *)
Definition isFinite (x : number) : bool :=
  match x with
  | S754_zero _ | S754_finite _ _ _ => true
  | S754_infinity _ | S754_nan => false
  end.

Definition isNaN (x : number) : bool :=
  match x with
  | S754_nan => true
  | _ => false
  end.

Definition lt (x y : number) : bool := SFltb x y.

(** The guard of [remoteCall] on the delay it read. *)
Definition clampDelay (delay : number) : number :=
  if negb (isFinite delay) || isNaN delay || lt delay zero then zero else delay.

(** The delay [remoteCall] hands to the transport for a delay value. *)
Definition dispatchDelay (dl : IMQDelay) : number := clampDelay (get_ms dl).

(** The scale of a unit, as the specification tabulates it. *)
Definition unitScale (u : Unit) : Z :=
  match u with
  | U_ms => 1
  | U_s => 1000
  | U_m => 60000
  | U_h => 3600000
  | U_d => 86400000
  end.

End Delay.

(** ** IMQClient *)

Module Client.

Import Delay.
Local Open Scope list_scope.

(** The values of type [any] that reach the client: call arguments,
    payloads and thrown values. *)
Inductive value :=
| VUndefined
| VNull
| VBool (b : bool)
| VNumber (n : number)
| VString (s : string)
| VDelay (dl : IMQDelay)
| VError (name message : string)
| VJson (text : string).

(** Modelled from the spec: the message types [IMQRPCRequest] and
    [IMQRPCResponse] are declared outside the sources at hand; the
    request has [from], [method] and [args], the response has [to] (the
    correlation id), [data], [error] (the payload, or [None] when the
    field is null or not there) and the request it answers. *)
Record IMQRPCRequest := mkRequest {
  req_from : string;
  req_method : value;
  req_args : list value
}.

Record IMQRPCResponse := mkResponse {
  res_to : string;
  res_data : value;
  res_error : option value;
  res_request : IMQRPCRequest
}.

(** What [if (v)] tests: undefined, null, false, the zeros, NaN and the
    empty string are falsy, an object is truthy. *)
Definition truthy (v : value) : bool :=
  match v with
  | VUndefined | VNull => false
  | VBool b => b
  | VNumber (S754_zero _) | VNumber S754_nan => false
  | VNumber _ => true
  | VString s => negb (String.eqb s "")
  | VDelay _ | VError _ _ | VJson _ => true
  end.

(** The error payload of a response when [if (message.error)] takes the
    branch: a payload that is there and truthy. *)
Definition failed (message : IMQRPCResponse) : option value :=
  match res_error message with
  | Some e => if truthy e then Some e else None
  | None => None
  end.

(** The two functions a promise hands to its executor, named by the
    promise they settle. *)
Inductive callback :=
| ResolveOf (p : nat)
| RejectOf (p : nat).

(** What a piece of client code does to the outside, in order. *)
Inductive effect :=
| Emit (event : value) (payload : IMQRPCResponse)
| Call (f : callback) (arg : value).

Inductive completion :=
| Normal
| Throws (e : value).

(** The calls of promise functions among some effects. *)
Definition settlements (effs : list effect) : list effect :=
  List.filter (fun e => match e with Call _ _ => true | Emit _ _ => false end) effs.

(** The transport handle [IMessageQueue] of the queue library.  Every
    operation may change the queue and may throw; [imq_send] returns the
    id of the message it enqueued.  [imq_subscribed] observes whether the
    queue holds a broadcast subscription.  The effects of a method of the
    client are the calls its own code makes: what the transport does
    later with the handler that [imq_send] was given is the transport's
    and is not among them. *)
Class IMessageQueue (Q : Type) := {
  imq_create : string -> Q;
  imq_send : Q -> string -> IMQRPCRequest -> number -> callback -> Q * (value + string);
  imq_start : Q -> Q * completion;
  imq_stop : Q -> Q * completion;
  imq_subscribe : Q -> string -> Q * completion;
  imq_unsubscribe : Q -> Q * completion;
  imq_destroy : Q -> Q * completion;
  imq_subscribed : Q -> bool
}.

(** [baseName.replace(/Client$/, '')]: the first position from the left
    where what remains is exactly [Client] loses it. *)
Fixpoint stripClientSuffix (s : string) : string :=
  if String.eqb s "Client" then ""
  else
    match s with
    | "" => ""
    | String c s' => String c (stripClientSuffix s')
    end.

(** Modelled from the spec: [forgetPid] is not in the sources at hand;
    the process-identity collaborator's [releaseId(name, id)] takes the
    identity out of the registry. *)
Definition forgetPid (name : string) (id : nat) (pids : gset (string * nat))
  : gset (string * nat) :=
  pids ∖ {[ (name, id) ]}.

Section WithQueue.

Context {Q : Type} `{IMessageQueue Q}.

(** The fields of an [IMQClient], the listeners it holds as an
    [EventEmitter], whether [start] has installed the message handler
    on the queue, and the registry of process identities.  The keys of
    [resolvers] are the ids the transport issues; none of them is the
    name of a member of [Object.prototype], so a lookup finds an entry
    of the registry or nothing. *)
Record World := mkWorld {
  baseName : string;
  clientId : nat;
  name : string;
  serviceName : string;
  imq : Q;
  resolvers : gmap string (callback * callback);
  listeners : gmap string (list nat);
  handling : bool;
  pids : gset (string * nat)
}.

Definition set_imq (q : Q) (w : World) : World :=
  mkWorld (baseName w) (clientId w) (name w) (serviceName w) q
          (resolvers w) (listeners w) (handling w) (pids w).

Definition set_resolvers (r : gmap string (callback * callback)) (w : World) : World :=
  mkWorld (baseName w) (clientId w) (name w) (serviceName w) (imq w)
          r (listeners w) (handling w) (pids w).

Definition set_listeners (l : gmap string (list nat)) (w : World) : World :=
  mkWorld (baseName w) (clientId w) (name w) (serviceName w) (imq w)
          (resolvers w) l (handling w) (pids w).

Definition set_handling (b : bool) (w : World) : World :=
  mkWorld (baseName w) (clientId w) (name w) (serviceName w) (imq w)
          (resolvers w) (listeners w) b (pids w).

Definition set_pids (p : gset (string * nat)) (w : World) : World :=
  mkWorld (baseName w) (clientId w) (name w) (serviceName w) (imq w)
          (resolvers w) (listeners w) (handling w) p.

(** A method body: it changes the world, acts on the outside and
    completes.  The awaits of the source are sequencing here: no other
    code runs between the steps of one body. *)
Definition Action := World -> World * list effect * completion.

Definition andThen (a b : Action) : Action :=
  fun w =>
    let '(w1, e1, o1) := a w in
    match o1 with
    | Normal => let '(w2, e2, o2) := b w1 in (w2, e1 ++ e2, o2)
    | Throws x => (w1, e1, Throws x)
    end.

Definition pure (f : World -> World) : Action := fun w => (f w, [], Normal).

Definition onQueue (op : Q -> Q * completion) : Action :=
  fun w => let '(q, o) := op (imq w) in (set_imq q w, [], o).

(** The constructor, for a concrete subclass named [className]; the
    handlers it puts on the signals of the process are left out.
    Modelled from the spec: [pid] and [osUuid] are not in the sources at
    hand; [newId] is what [pid(baseName)] acquires, registered with the
    base name, and [uuid] is what [osUuid()] returns. *)
Definition construct (className : string) (svcName nm : option string)
    (uuid : string) (newId : nat) (registry : gset (string * nat))
  : value + World :=
  let baseName :=
    match nm with
    | Some n => if String.eqb n "" then className else n
    | None => className
    end in
  if String.eqb className "IMQClient" then
    inl (VError "TypeError"
           "IMQClient class is abstract and cannot be instantiated directly!")
  else
    let name :=
      (baseName ++ "-" ++ uuid ++ "-" ++ pretty newId ++ ":client")%string in
    let serviceName :=
      match svcName with
      | Some s => if String.eqb s "" then stripClientSuffix baseName else s
      | None => stripClientSuffix baseName
      end in
    inr (mkWorld baseName newId name serviceName (imq_create name)
                 ∅ ∅ false ({[ (baseName, newId) ]} ∪ registry)).

(** [args.pop()] on the argument array: the element taken, undefined
    when there is none, and the array left. *)
Definition pop (args : list value) : value * list value :=
  (default VUndefined (last args), removelast args).

(** The first half of [remoteCall]: the destination, the request
    message and the delay handed to [send]. *)
Definition prepareCall (w : World) (args : list value)
  : string * IMQRPCRequest * number :=
  let '(method, args) := pop args in
  let from := name w in
  let to := serviceName w in
  let '(delay, args) :=
    match last args with
    | Some (VDelay dl) => (dispatchDelay dl, removelast args)
    | _ => (zero, args)
    end in
  (to, mkRequest from method args, delay).

(** [remoteCall], which returns promise [p]: the executor sends the
    message, then registers the promise's two functions under the id
    the transport returned; what [send] throws rejects the promise. *)
Definition remoteCall (args : list value) (p : nat) : Action :=
  fun w =>
    let '(to, message, delay) := prepareCall w args in
    match imq_send (imq w) to message delay (RejectOf p) with
    | (q, inr id) =>
        (set_resolvers (<[ id := (ResolveOf p, RejectOf p) ]> (resolvers w))
                       (set_imq q w),
         [], Normal)
    | (q, inl err) => (set_imq q w, [Call (RejectOf p) err], Normal)
    end.

(** What destructuring [undefined] throws. *)
Definition notIterable : value :=
  VError "TypeError" "undefined is not iterable".

(** The message handler that [start] installs.  The method name of a
    request names a method of the service; the event [error], which
    [emit] treats apart, is not among them. *)
Definition onMessage (message : IMQRPCResponse) : Action :=
  fun w =>
    let emitted :=
      match resolvers w !! res_to message with
      | None => [Emit (req_method (res_request message)) message]
      | Some _ => []
      end in
    match resolvers w !! res_to message with
    | None => (w, emitted, Throws notIterable)
    | Some (resolve, reject) =>
        let w' := set_resolvers (delete (res_to message) (resolvers w)) w in
        match failed message with
        | Some e => (w', emitted ++ [Call reject e], Normal)
        | None => (w', emitted ++ [Call resolve (res_data message)], Normal)
        end
    end.

(** [start]: the handler is put on the queue, then the queue is started.
    [handling] records that the handler is there; a client is started
    once here, a second [start] of the source would put the handler on
    the queue a second time. *)
Definition start : Action :=
  andThen (pure (set_handling true)) (onQueue imq_start).

Definition stop : Action := onQueue imq_stop.

Definition subscribe : Action :=
  fun w => onQueue (fun q => imq_subscribe q (serviceName w)) w.

Definition unsubscribe : Action := onQueue imq_unsubscribe.

Definition destroy : Action :=
  andThen (onQueue imq_unsubscribe)
    (andThen (pure (fun w => set_pids (forgetPid (baseName w) (clientId w) (pids w)) w))
       (andThen (pure (set_listeners ∅))
          (onQueue imq_destroy))).

(** Modelled from the spec: the decorator [remote] is not in the
    sources at hand; a decorated method passes its arguments on with
    its own name appended, which is what [remoteCall] pops. *)
Definition describe (args : list value) (p : nat) : Action :=
  remoteCall (args ++ [VString "describe"]) p.

(** A client that holds nothing any more: no broadcast subscription,
    no listener, no registered process identity. *)
Definition released (w : World) : Prop :=
  imq_subscribed (imq w) = false /\
  listeners w = ∅ /\
  (baseName w, clientId w) ∉ pids w.

End WithQueue.

Arguments World Q : clear implicits.
Arguments Action Q : clear implicits.

End Client.

(** ** The contract of a well-behaved transport *)

Module Contract.

Import Client.

(** Releasing a subscription and destroying the queue complete normally,
    leave no subscription behind, and change nothing when repeated. *)
Class QueueContract (Q : Type) `{IMessageQueue Q} : Prop := {
  unsubscribe_completes : forall q : Q, snd (imq_unsubscribe q) = Normal;
  unsubscribe_releases : forall q : Q, imq_subscribed (fst (imq_unsubscribe q)) = false;
  unsubscribe_idle : forall q : Q,
    imq_subscribed q = false -> fst (imq_unsubscribe q) = q;
  destroy_completes : forall q : Q, snd (imq_destroy q) = Normal;
  destroy_unsubscribed : forall q : Q,
    imq_subscribed q = false -> imq_subscribed (fst (imq_destroy q)) = false;
  destroy_again : forall q : Q,
    fst (imq_destroy (fst (imq_destroy q))) = fst (imq_destroy q)
}.

End Contract.

(** ** getDescription *)

Module Fetch.

Import Client.

(** The error of the timeout callback. *)
Definition timeoutError (name : string) : value :=
  VError "EvalError"
    ("Generate client error: service remote " ++
     "call timed-out! Is service " ++ Js.dquote ++ name ++ Js.dquote ++
     " running?").




Inductive settlement :=
| Resolved (v : value)
| Rejected (reason : value).

(** A promise is settled by the first call only. *)
Definition settle (s : settlement) (o : option settlement) : option settlement :=
  match o with
  | Some _ => o
  | None => Some s
  end.

(** The first call of a function of promise [p] among some effects. *)
Fixpoint settledBy (p : nat) (effs : list effect) : option settlement :=
  match effs with
  | [] => None
  | Call (ResolveOf p') v :: rest =>
      if Nat.eqb p' p then Some (Resolved v) else settledBy p rest
  | Call (RejectOf p') e :: rest =>
      if Nat.eqb p' p then Some (Rejected e) else settledBy p rest
  | Emit _ _ :: rest => settledBy p rest
  end.

(** The promise of the [describe] call inside one fetch. *)
Definition describePromise : nat := 1.

Section WithQueue.

Context {Q : Type} `{IMessageQueue Q}.

(** One run of [getDescription name]: the transient client, whether the
    timeout is armed, the promise the executor is suspended on, and how
    the returned promise has been settled. *)
Record Run := mkRun {
  target : string;
  client : option (World Q);
  timerArmed : bool;
  awaiting : option nat;
  outcome : option settlement
}.

(** The executor up to its suspension on [client.describe()]. *)
Definition begin (name uuid : string) (newId : nat)
    (registry : gset (string * nat)) : Run :=
  match construct "GeneratorClient" (Some name) (Some (name ++ "Client"))
                  uuid newId registry with
  | inl _ => mkRun name None false None None
  | inr w0 =>
      let '(w1, _, o1) := start w0 in
      match o1 with
      | Throws _ => mkRun name (Some w1) false None None
      | Normal =>
          let '(w2, effs, _) := describe [] describePromise w1 in
          match settledBy describePromise effs with
          | Some _ => mkRun name (Some w2) true None None
          | None => mkRun name (Some w2) true (Some describePromise) None
          end
      end
  end.

(** The timeout callback. *)
Definition timerFires (r : Run) : Run :=
  if timerArmed r then
    match client r with
    | Some w =>
        let '(w', _, o) := destroy w in
        mkRun (target r) (Some w') false (awaiting r)
          match o with
          | Normal => settle (Rejected (timeoutError (target r))) (outcome r)
          | Throws _ => outcome r
          end
    | None => r
    end
  else r.

(** A message from the queue reaches the handler of the transient
    client; when that settles the awaited [describe], the executor goes
    on: it clears the timeout, destroys the client and resolves. *)
Definition deliver (message : IMQRPCResponse) (r : Run) : Run :=
  match client r with
  | Some w =>
      if handling w then
        let '(w1, effs, _) := onMessage message w in
        match awaiting r with
        | Some p =>
            match settledBy p effs with
            | Some (Resolved description) =>
                let '(w2, _, o) := destroy w1 in
                mkRun (target r) (Some w2) false None
                  match o with
                  | Normal => settle (Resolved description) (outcome r)
                  | Throws _ => outcome r
                  end
            | Some (Rejected _) =>
                mkRun (target r) (Some w1) (timerArmed r) None (outcome r)
            | None =>
                mkRun (target r) (Some w1) (timerArmed r) (awaiting r) (outcome r)
            end
        | None =>
            mkRun (target r) (Some w1) (timerArmed r) None (outcome r)
        end
      else r
  | None => r
  end.


End WithQueue.

Arguments Run Q : clear implicits.

End Fetch.

(** ** A queue in memory *)

Module MemQueue.

Import Delay Client.

(** The messages sent, the next id, the broadcast channel subscribed to,
    and an error that [send] throws when it is set. *)
Record t := mk {
  outbox : list (string * IMQRPCRequest * number);
  nextId : nat;
  channel : option string;
  running : bool;
  released : bool;
  sendError : option value
}.

Definition create (_ : string) : t := mk [] 0 None false false None.

Definition send (q : t) (to : string) (message : IMQRPCRequest)
    (delay : number) (_ : callback) : t * (value + string) :=
  match sendError q with
  | Some err => (q, inl err)
  | None =>
      (mk (outbox q ++ [(to, message, delay)])%list (S (nextId q)) (channel q)
          (running q) (released q) None,
       inr ("msg-" ++ pretty (nextId q)))
  end.

Definition startQ (q : t) : t * completion :=
  (mk (outbox q) (nextId q) (channel q) true (released q) (sendError q), Normal).

Definition stopQ (q : t) : t * completion :=
  (mk (outbox q) (nextId q) (channel q) false (released q) (sendError q), Normal).

Definition subscribeQ (q : t) (ch : string) : t * completion :=
  (mk (outbox q) (nextId q) (Some ch) (running q) (released q) (sendError q), Normal).

Definition unsubscribeQ (q : t) : t * completion :=
  (mk (outbox q) (nextId q) None (running q) (released q) (sendError q), Normal).

Definition destroyQ (q : t) : t * completion :=
  (mk (outbox q) (nextId q) None false true (sendError q), Normal).

Definition subscribedQ (q : t) : bool :=
  match channel q with
  | Some _ => true
  | None => false
  end.

#[global] Instance queue : IMessageQueue t := {
  imq_create := create;
  imq_send := send;
  imq_start := startQ;
  imq_stop := stopQ;
  imq_subscribe := subscribeQ;
  imq_unsubscribe := unsubscribeQ;
  imq_destroy := destroyQ;
  imq_subscribed := subscribedQ
}.

(** A queue whose [send] throws [err]. *)
Definition failing (err : value) : t := mk [] 0 None true false (Some err).

(** A started client of a service [Demo] over the queue [q], subscribed
    to the broadcast channel, with one listener and the pending calls
    [pending]. *)
Definition demo (q : t) (pending : gmap string (callback * callback)) : World t :=
  mkWorld "DemoClient" 1 "DemoClient-host-1:client" "Demo" q pending
          {[ "update" := [0] ]} true {[ ("DemoClient", 1) ]}.

Definition subscribedQueue : t := mk [] 1 (Some "Demo") true false None.

Definition onePending : gmap string (callback * callback) :=
  {[ "msg-0" := (ResolveOf 7, RejectOf 7) ]}.

Definition demoRequest : IMQRPCRequest :=
  mkRequest "DemoClient-host-1:client" (VString "find") [VNumber (ofZ 3)].

Definition okResponse : IMQRPCResponse :=
  mkResponse "msg-0" (VJson "{}") None demoRequest.

Definition errorResponse : IMQRPCResponse :=
  mkResponse "msg-0" VNull (Some (VError "Error" "not found")) demoRequest.

Definition orphanResponse : IMQRPCResponse :=
  mkResponse "msg-9" (VJson "{}") None demoRequest.

(** A response to the pending call whose error payload is the empty
    string. *)
Definition emptyErrorResponse : IMQRPCResponse :=
  mkResponse "msg-0" (VJson "{}") (Some (VString "")) demoRequest.

(** The answer to the [describe] call of a fetch for the service [Foo]. *)
Definition describeResponse : IMQRPCResponse :=
  mkResponse "msg-0" (VJson "{}") None
    (mkRequest "FooClient-host-1:client" (VString "describe") []).

(** A call [find(3, new IMQDelay(2, 's'))] as the stub passes it on. *)
Definition delayedCall : list value :=
  [VNumber (ofZ 3); VDelay (mkDelay (ofZ 2) U_s); VString "find"].

End MemQueue.

(** ** Texts: white space and line breaks *)

Module Text.

(** No white space character is followed by another one. *)
Fixpoint noDoubleSpace (s : string) : bool :=
  match s with
  | "" => true
  | String c s' => negb (Js.isSpace c && Js.headIsSpace s') && noDoubleSpace s'
  end.

(** The text has a line feed. *)
Fixpoint hasLF (s : string) : bool :=
  match s with
  | "" => false
  | String c s' => Ascii.eqb c Js.LF || hasLF s'
  end.

End Text.

(** ** One parameter of a generated method *)

Module Stub.

Import Generator.

(** What the loop over the arguments writes for one of them, the
    separator apart. *)
Definition renderParam (arg : ArgDescription) : string :=
  arg_name arg ++ (if arg_isOptional arg then "?" else "") ++
  ": " ++ Js.collapseSpaces false (arg_tsType arg).

End Stub.

(** ** Responses in sequence *)

Module Session.

Import Client.
Local Open Scope list_scope.

Section WithQueue.

Context {Q : Type} `{IMessageQueue Q}.

(** The handler run on one response after the other, each in a turn of
    its own: what one run throws goes to the transport that delivered
    the response and does not keep the next response from the handler. *)
Fixpoint handleAll (messages : list IMQRPCResponse) (w : World Q)
  : World Q * list effect :=
  match messages with
  | [] => (w, [])
  | message :: rest =>
      let '(w1, e1, _) := onMessage message w in
      let '(w2, e2) := handleAll rest w1 in
      (w2, e1 ++ e2)
  end.

End WithQueue.

End Session.

(** ** The events of one fetch *)

Module FetchRun.

Import Client Fetch.

Inductive event :=
| TimerFired
| Delivered (message : IMQRPCResponse).

(** The transport name of the transient client of a fetch, as the
    constructor builds it. *)
Definition transientName (name uuid : string) (newId : nat) : string :=
  (name ++ "Client") ++ "-" ++ uuid ++ "-" ++ pretty newId ++ ":client".

Section WithQueue.

Context {Q : Type} `{IMessageQueue Q}.

Definition step (r : Run Q) (e : event) : Run Q :=
  match e with
  | TimerFired => timerFires r
  | Delivered message => deliver message r
  end.

Definition run (events : list event) (r : Run Q) : Run Q :=
  fold_left step events r.

End WithQueue.

End FetchRun.

(** ** The earlier revision of the client *)

Module Legacy.

Import Client.
Local Open Scope list_scope.

Section WithQueue.

Context {Q : Type} `{IMessageQueue Q}.

(** The message handler of the earlier revision, installed by the
    constructor and run in the next tick: it looks the entry up and calls
    one of its functions, and leaves the registry as it is. *)
Definition onMessage (message : IMQRPCResponse) : Action Q :=
  fun w =>
    let emitted :=
      match resolvers w !! res_to message with
      | None => [Emit (req_method (res_request message)) message]
      | Some _ => []
      end in
    match resolvers w !! res_to message with
    | None => (w, emitted, Throws notIterable)
    | Some (resolve, reject) =>
        match failed message with
        | Some e => (w, emitted ++ [Call reject e], Normal)
        | None => (w, emitted ++ [Call resolve (res_data message)], Normal)
        end
    end.

(** [destroy] of the earlier revision: the listeners of every event name
    are removed, then the queue is destroyed. *)
Definition destroy : Action Q :=
  andThen (pure (set_listeners ∅)) (onQueue imq_destroy).

End WithQueue.

End Legacy.

(** ** A queue in memory that can fail *)

Module Faulty.

Import Client.

(** What goes wrong: [start] throws, [send] throws, [unsubscribe]
    throws. *)
Record faults := mkFaults {
  startFails : bool;
  sendFails : bool;
  unsubscribeFails : bool
}.

Definition down : value := VError "Error" "queue down".

(** The in-memory queue with the faults [f]. *)
Definition queue (f : faults) : IMessageQueue MemQueue.t := {|
  imq_create := fun name =>
    if sendFails f then MemQueue.mk [] 0 None false false (Some down)
    else MemQueue.create name;
  imq_send := MemQueue.send;
  imq_start := fun q => if startFails f then (q, Throws down) else MemQueue.startQ q;
  imq_stop := MemQueue.stopQ;
  imq_subscribe := MemQueue.subscribeQ;
  imq_unsubscribe := fun q =>
    if unsubscribeFails f then (q, Throws down) else MemQueue.unsubscribeQ q;
  imq_destroy := MemQueue.destroyQ;
  imq_subscribed := MemQueue.subscribedQ
|}.


(** A second pending call beside the one of [MemQueue.onePending]. *)
Definition twoPending : gmap string (callback * callback) :=
  <[ "msg-1" := (ResolveOf 9, RejectOf 9) ]> MemQueue.onePending.

Definition secondResponse : IMQRPCResponse :=
  mkResponse "msg-1" (VJson "[]") None MemQueue.demoRequest.

(** The answer to [describe] that reports an error of the service. *)
Definition describeFailure : IMQRPCResponse :=
  mkResponse "msg-0" VNull (Some (VError "Error" "no access"))
    (mkRequest "FooClient-host-1:client" (VString "describe") []).

End Faulty.

(** ** Whole numbers as binary64 values *)

Module Whole.

(** [p] with [z] zero bits after it. *)
Definition shl (p : positive) (z : Z) : positive :=
  match z with
  | Zpos n => Pos.iter xO p n
  | _ => p
  end.

(** The binary64 value of the whole number [p] below 2^53, with sign
    [s]: the mantissa filled up to 53 bits. *)
Definition canon (s : bool) (p : positive) : spec_float :=
  S754_finite s (shl p (53 - Z.pos (digits2_pos p))) (Z.pos (digits2_pos p) - 53).

End Whole.

(** * Properties *)

(** ** Strings *)

#[local] Arguments String.append !_ _ / : simpl nomatch.

Section StringFacts.

Lemma append_empty_r (s : string) : s ++ "" = s.
Proof. induction s as [|c s IH]; simpl; [reflexivity | now rewrite IH]. Qed.

Lemma append_assoc (a b c : string) : (a ++ b) ++ c = a ++ b ++ c.
Proof. induction a as [|x a IH]; simpl; [reflexivity | now rewrite IH]. Qed.

Lemma length_append (a b : string) :
  String.length (a ++ b) = String.length a + String.length b.
Proof. induction a as [|x a IH]; simpl; [reflexivity | now rewrite IH]. Qed.

Lemma append_eq_r (a b : string) : a ++ b = b -> a = "".
Proof.
  intros E. apply (f_equal String.length) in E. rewrite length_append in E.
  destruct a; [reflexivity | simpl in E; lia].
Qed.

Lemma append_inj_l (a b c : string) : a ++ c = b ++ c -> a = b.
Proof.
  revert b. induction a as [|x a IH]; intros [|y b] E; simpl in E.
  - reflexivity.
  - symmetry in E. change (String y (b ++ c)) with (String y b ++ c) in E.
    apply append_eq_r in E. discriminate.
  - change (String x (a ++ c)) with (String x a ++ c) in E.
    apply append_eq_r in E. discriminate.
  - injection E as -> E. f_equal. now apply IH.
Qed.

Lemma startsWith_stripPrefix (p s : string) :
  Js.startsWith p s = true <-> exists r, Generator.stripPrefix p s = Some r.
Proof.
  revert s. induction p as [|a p IH]; intros s; simpl.
  - split; [eauto | reflexivity].
  - destruct s as [|b s]; [split; [discriminate | intros [r Hr]; discriminate] |].
    destruct (Ascii.eqb a b); [apply IH |].
    split; [discriminate | intros [r Hr]; discriminate].
Qed.

Lemma stripPrefix_spec (p s r : string) :
  Generator.stripPrefix p s = Some r <-> s = p ++ r.
Proof.
  revert s. induction p as [|a p IH]; intros s; simpl.
  - split; [now intros [= ->] | now intros ->].
  - destruct s as [|b s]; [split; discriminate |].
    destruct (Ascii.eqb_spec a b) as [->|Hne].
    + rewrite IH. split; [now intros -> | now intros [= ->]].
    + split; [discriminate | intros [= E _]; congruence].
Qed.

Lemma startsWith_append (p s : string) : Js.startsWith p (p ++ s) = true.
Proof. apply startsWith_stripPrefix. exists s. now apply stripPrefix_spec. Qed.

Lemma lazyUntilFinalGt_spec (rest inner : string) :
  Generator.lazyUntilFinalGt rest = Some inner <->
  inner <> "" /\ rest = inner ++ ">".
Proof.
  revert inner. induction rest as [|c rest IH]; intros inner; simpl.
  - split; [discriminate | intros [Hne E]].
    destruct inner; [congruence | discriminate].
  - destruct (String.eqb_spec rest ">") as [->|Hrest].
    + split.
      * intros [= <-]. split; [discriminate | reflexivity].
      * intros [Hne E]. destruct inner as [|x inner]; [congruence |].
        simpl in E. injection E as -> E.
        destruct inner as [|y inner]; [reflexivity |].
        simpl in E. injection E as _ E. destruct inner; discriminate.
    + destruct (Generator.lazyUntilFinalGt rest) as [x|] eqn:Hx; simpl.
      * destruct (proj1 (IH x) eq_refl) as [Hne ->]. split.
        -- intros [= <-]. split; [discriminate | reflexivity].
        -- intros [Hi E]. destruct inner as [|y inner]; [congruence |].
           simpl in E. injection E as -> E.
           apply append_inj_l in E. now subst.
      * split; [discriminate | intros [Hne E]].
        destruct inner as [|y inner]; [congruence |].
        simpl in E. injection E as _ E.
        destruct inner as [|z inner]; [simpl in E; congruence |].
        assert (None = Some (String z inner)) as Habs
          by (apply IH; split; [discriminate | assumption]).
        discriminate.
Qed.

End StringFacts.

(** ** The generated names *)

Section Names.

Import Generator.

Lemma replaceServiceSuffix_cons (c : ascii) (s : string) :
  replaceServiceSuffix (String c s) =
  if String.eqb (String c s) "Service" then "Client"
  else String c (replaceServiceSuffix s).
Proof. reflexivity. Qed.

Lemma longer_than_Service (c : ascii) (p : string) :
  String.eqb (String c (p ++ "Service")) "Service" = false.
Proof.
  apply String.eqb_neq. intros E. apply (f_equal String.length) in E.
  simpl in E. rewrite length_append in E. simpl in E. lia.
Qed.

Lemma replaceServiceSuffix_suffix (p : string) :
  replaceServiceSuffix (p ++ "Service") = p ++ "Client".
Proof.
  induction p as [|c p IH]; [reflexivity |].
  change (String c p ++ "Service") with (String c (p ++ "Service")).
  rewrite replaceServiceSuffix_cons, longer_than_Service, IH. reflexivity.
Qed.

Lemma replaceServiceSuffix_other (s : string) :
  (forall p, s <> p ++ "Service") ->
  replaceServiceSuffix s = s ++ "Client".
Proof.
  induction s as [|c s IH]; intros Hno; [reflexivity |].
  rewrite replaceServiceSuffix_cons.
  destruct (String.eqb_spec (String c s) "Service") as [E|_].
  - exfalso. apply (Hno ""). exact E.
  - rewrite IH; [reflexivity |].
    intros p ->. apply (Hno (String c p)). reflexivity.
Qed.

Lemma namespaceName_lowerFirst (serviceName : string) :
  namespaceName serviceName = lowerFirst serviceName.
Proof. destruct serviceName; reflexivity. Qed.

(** C6, as the code has it: the client name is the service name with a
    trailing [Service] replaced by [Client], or with [Client] appended
    when it does not end so; the namespace is the service name (not the
    client name) with its first character in lower case. *)
Theorem generator_names (serviceName : string) :
  (forall p, serviceName = p ++ "Service" ->
             clientName serviceName = p ++ "Client") /\
  ((forall p, serviceName <> p ++ "Service") ->
   clientName serviceName = serviceName ++ "Client") /\
  namespaceName serviceName = lowerFirst serviceName /\
  namespaceLine serviceName =
    "export namespace " ++ lowerFirst serviceName ++ " {".
Proof.
  unfold clientName, namespaceLine. repeat split.
  - intros p ->. apply replaceServiceSuffix_suffix.
  - apply replaceServiceSuffix_other.
  - apply namespaceName_lowerFirst.
  - now rewrite namespaceName_lowerFirst.
Qed.

Lemma generator_names_witness :
  clientName "UserService" = "UserClient" /\
  clientName "Auth" = "AuthClient" /\
  namespaceName "UserService" = "userService".
Proof.
  split; [| split].
  - exact (proj1 (generator_names "UserService") "User" eq_refl).
  - refine (proj1 (proj2 (generator_names "Auth")) _).
    intros p E. apply (f_equal String.length) in E.
    rewrite length_append in E. simpl in E. lia.
  - exact (proj1 (proj2 (proj2 (generator_names "UserService")))).
Defined.

(** C6 as stated fails: for [UserService] the namespace is
    [userService], while the client name in lower-case first is
    [userClient]. *)
Lemma namespace_is_not_lowered_client_name :
  namespaceName "UserService" = "userService" /\
  lowerFirst (clientName "UserService") = "userClient" /\
  namespaceName "UserService" <> lowerFirst (clientName "UserService").
Proof. repeat split; discriminate. Qed.

End Names.

(** ** The generated return type *)

Section ReturnType.

Import Generator.

Lemma wrapDepthFuel_step (fuel : nat) (t : string) :
  wrapDepthFuel (S fuel) t =
  match stripPrefix "Promise<" t with
  | Some rest =>
      match lazyUntilFinalGt rest with
      | Some inner => S (wrapDepthFuel fuel inner)
      | None => 0
      end
  | None => 0
  end.
Proof. reflexivity. Qed.

Lemma wrapDepthFuel_empty (fuel : nat) : wrapDepthFuel fuel "" = 0.
Proof. destruct fuel; reflexivity. Qed.

Lemma unwrap_shorter (t rest inner : string) :
  stripPrefix "Promise<" t = Some rest ->
  lazyUntilFinalGt rest = Some inner ->
  String.length t = 9 + String.length inner.
Proof.
  intros Hp Hl. apply stripPrefix_spec in Hp. apply lazyUntilFinalGt_spec in Hl.
  destruct Hl as [_ ->]. subst t. rewrite !length_append. simpl. lia.
Qed.

Lemma wrapDepthFuel_enough (n m : nat) (t : string) :
  String.length t <= n -> String.length t <= m ->
  wrapDepthFuel n t = wrapDepthFuel m t.
Proof.
  revert m t. induction n as [|n IH]; intros m t Hn Hm.
  - destruct t; [now rewrite !wrapDepthFuel_empty | simpl in Hn; lia].
  - destruct m as [|m].
    + destruct t; [now rewrite !wrapDepthFuel_empty | simpl in Hm; lia].
    + rewrite !wrapDepthFuel_step.
      destruct (stripPrefix "Promise<" t) as [rest|] eqn:Hp; [| reflexivity].
      destruct (lazyUntilFinalGt rest) as [inner|] eqn:Hl; [| reflexivity].
      pose proof (unwrap_shorter _ _ _ Hp Hl). f_equal. apply IH; lia.
Qed.

Lemma cleanType_wrapped (x : string) :
  x <> "" -> cleanType ("Promise<" ++ x ++ ">") = x.
Proof.
  intros Hx. unfold cleanType.
  rewrite (proj2 (stripPrefix_spec "Promise<" _ (x ++ ">")) eq_refl).
  now rewrite (proj2 (lazyUntilFinalGt_spec (x ++ ">") x) (conj Hx eq_refl)).
Qed.

Lemma wrapDepth_wrapped (x : string) :
  x <> "" -> wrapDepth ("Promise<" ++ x ++ ">") = S (wrapDepth x).
Proof.
  intros Hx. unfold wrapDepth.
  remember (String.length ("Promise<" ++ x ++ ">")) as n eqn:Hn.
  rewrite !length_append in Hn. simpl in Hn.
  destruct n as [|n]; [lia |]. rewrite wrapDepthFuel_step.
  rewrite (proj2 (stripPrefix_spec "Promise<" _ (x ++ ">")) eq_refl).
  rewrite (proj2 (lazyUntilFinalGt_spec (x ++ ">") x) (conj Hx eq_refl)).
  f_equal. apply wrapDepthFuel_enough; lia.
Qed.

Lemma wrapDepth_unwrapped (t : string) :
  Js.startsWith "Promise<" t = false -> wrapDepth t = 0.
Proof.
  intros Hs. unfold wrapDepth. destruct (String.length t); [reflexivity |].
  rewrite wrapDepthFuel_step.
  destruct (stripPrefix "Promise<" t) as [rest|] eqn:Hp; [| reflexivity].
  assert (Js.startsWith "Promise<" t = true) as Habs
    by (apply startsWith_stripPrefix; eauto).
  congruence.
Qed.

Lemma wrapDepth_empty_wrapper : wrapDepth "Promise<>" = 0.
Proof. reflexivity. Qed.


(** C5, as the code has it: the generated return type always begins
    with [Promise<]; it is the declared type (after white space
    normalisation) unchanged when that begins with [Promise<], and that
    type inside one [Promise<...>] otherwise.  So a non-empty type that
    is not wrapped gets exactly one wrapper, and a type that is wrapped
    keeps the wrappers it has, two of them when it has two. *)
Theorem generatedReturnType_spec (tsType : string) :
  Js.startsWith "Promise<" (generatedReturnType tsType) = true /\
  generatedReturnType tsType =
    (if Js.startsWith "Promise<" (retTypeOf tsType)
     then retTypeOf tsType
     else "Promise<" ++ retTypeOf tsType ++ ">") /\
  wrapDepth (generatedReturnType tsType) =
    (if Js.startsWith "Promise<" (retTypeOf tsType)
     then wrapDepth (retTypeOf tsType)
     else if String.eqb (retTypeOf tsType) "" then 0 else 1).
Proof.
  unfold generatedReturnType, promisedType.
  set (r := retTypeOf tsType).
  destruct (Js.startsWith "Promise<" r) eqn:Hs; cbn [negb].
  - repeat split. exact Hs.
  - split; [apply startsWith_append | split; [reflexivity |]].
    destruct (String.eqb_spec r "") as [->|Hr]; [reflexivity |].
    rewrite wrapDepth_wrapped by assumption.
    now rewrite wrapDepth_unwrapped.
Qed.

(** C5 as stated fails: a doubly wrapped declared type comes out doubly
    wrapped. *)
Lemma double_wrapper_is_kept :
  generatedReturnType "Promise<Promise<number>>" = "Promise<Promise<number>>" /\
  wrapDepth (generatedReturnType "Promise<Promise<number>>") = 2 /\
  wrapDepth (generatedReturnType "Promise<Promise<number>>") <> 1.
Proof. repeat split; discriminate. Qed.

End ReturnType.

(** ** The generated parameters *)

Section Signatures.

Import Generator.

Lemma withDelay_last (args : list ArgDescription) (lastArg : ArgDescription) :
  last args = Some lastArg ->
  withDelay args =
    if String.eqb (arg_type lastArg) "IMQDelay" then args
    else (args ++ [delayArg])%list.
Proof.
  intros Hl. unfold withDelay. rewrite Hl.
  now destruct (String.eqb (arg_type lastArg) "IMQDelay").
Qed.

(** A method that declares arguments ends with a delay parameter. *)
Lemma withDelay_declared (args : list ArgDescription) :
  args <> [] ->
  exists a, last (withDelay args) = Some a /\ arg_type a = "IMQDelay".
Proof.
  intros Hne. destruct (last args) as [lastArg|] eqn:Hl.
  - rewrite (withDelay_last _ _ Hl).
    destruct (String.eqb_spec (arg_type lastArg) "IMQDelay") as [E|_].
    + eauto.
    + exists delayArg. split; [apply last_snoc | reflexivity].
  - apply last_None in Hl. contradiction.
Qed.

Lemma withDelay_length (args : list ArgDescription) (lastArg : ArgDescription) :
  last args = Some lastArg ->
  arg_type lastArg <> "IMQDelay" ->
  length (withDelay args) = S (length args).
Proof.
  intros Hl Ht. rewrite (withDelay_last _ _ Hl).
  destruct (String.eqb_spec (arg_type lastArg) "IMQDelay"); [contradiction |].
  rewrite length_app. simpl. lia.
Qed.

Lemma add_has_three_parameters :
  length (withDelay (arguments addMethod)) = 3 /\
  methodHead "add" addMethod =
    "        public async add(a: number, b: number, delay?: IMQDelay): Promise<number> {"
    ++ nl.
Proof. split; reflexivity. Qed.

(** C4 at a method without arguments: the code generates it without a
    delay parameter. *)
Theorem no_delay_without_arguments :
  withDelay (arguments pingMethod) = [] /\
  generatedMethods [("ping", pingMethod)] = [("ping", [])] /\
  methodHead "ping" pingMethod =
    "        public async ping(): Promise<string> {" ++ nl.
Proof. repeat split. Qed.

End Signatures.

(** ** Delays *)

Section DelayFacts.

Import Delay.

(** Multiplying a value by one gives the value. *)
Lemma mul_one (x : number) : valid x = true -> mul x (ofZ 1) = x.
Proof.
  destruct x as [sx|sx| |sx mx ex]; intros Hv;
    try reflexivity; try (destruct sx; reflexivity).
  unfold valid in Hv. cbn [valid_binary] in Hv.
  unfold bounded, canonical_mantissa in Hv.
  apply andb_prop in Hv as [Hc Hb]. apply Z.eqb_eq in Hc.
  unfold mul, ofZ.
  replace (binary_normalize prec emax 1 0 false)
    with (S754_finite false 4503599627370496 (-52)) by reflexivity.
  unfold SFmul. rewrite Pos.mul_comm, xorb_false_r.
  cbv beta iota fix delta [Pos.mul].
  unfold binary_round_aux. unfold shr_fexp at 1.
  match goal with
  | |- context [Zdigits2 (Z.pos ?M)] =>
      assert (Hd : Zdigits2 (Z.pos M) = (Z.pos (digits2_pos mx) + 52)%Z)
        by (cbn [Zdigits2 digits2_pos]; rewrite !Pos2Z.inj_succ; lia);
      rewrite Hd
  end.
  replace (Z.pos (digits2_pos mx) + 52 + (ex + -52))%Z
    with (Z.pos (digits2_pos mx) + ex)%Z by lia.
  rewrite Hc. replace (ex - (ex + -52))%Z with 52%Z by lia.
  cbn [shr shr_record_of_loc SpecFloat.iter_pos shr_1 orb].
  cbn [shr_m loc_of_shr_record round_nearest_even].
  replace (ex + -52 + 52)%Z with ex by lia.
  unfold shr_fexp. cbn [Zdigits2]. rewrite Hc, Z.sub_diag.
  cbn [shr shr_record_of_loc shr_m]. rewrite Hb. reflexivity.
Qed.

Lemma get_ms_product (dl : IMQDelay) :
  valid (timer dl) = true ->
  get_ms dl = mul (timer dl) (ofZ (unitScale (unit dl))).
Proof.
  intros Hv. unfold get_ms.
  destruct (unit dl); cbn [unitScale]; [now rewrite mul_one | reflexivity ..].
Qed.

Lemma clampDelay_cases (x : number) :
  clampDelay x = if isFinite x && negb (lt x zero) then x else zero.
Proof. destruct x as [[|]|[|]| |[|] mx ex]; reflexivity. Qed.

Lemma clampDelay_range (x : number) :
  isFinite (clampDelay x) = true /\
  isNaN (clampDelay x) = false /\
  lt (clampDelay x) zero = false.
Proof. destruct x as [[|]|[|]| |[|] mx ex]; repeat split. Qed.

(** The guard applied to the getter: the product when that is finite and
    not below zero, 0 otherwise; always finite, not NaN, not below zero. *)
Lemma dispatchDelay_product (dl : IMQDelay) :
  valid (timer dl) = true ->
  get_ms dl = mul (timer dl) (ofZ (unitScale (unit dl))) /\
  dispatchDelay dl =
    (if isFinite (mul (timer dl) (ofZ (unitScale (unit dl))))
        && negb (lt (mul (timer dl) (ofZ (unitScale (unit dl)))) zero)
     then mul (timer dl) (ofZ (unitScale (unit dl))) else zero) /\
  isFinite (dispatchDelay dl) = true /\
  isNaN (dispatchDelay dl) = false /\
  lt (dispatchDelay dl) zero = false.
Proof.
  intros Hv. pose proof (get_ms_product dl Hv) as Hp.
  split; [exact Hp |]. unfold dispatchDelay. rewrite Hp.
  split; [apply clampDelay_cases | apply clampDelay_range].
Qed.

End DelayFacts.

(** ** The call-correlation code *)

Section Correlation.

Import Delay Client.
Local Open Scope list_scope.

Context {Q : Type} `{IMessageQueue Q}.

Lemma resolvers_set_resolvers r (w : World Q) :
  resolvers (set_resolvers r w) = r.
Proof. reflexivity. Qed.

Lemma resolvers_set_imq q (w : World Q) :
  resolvers (set_imq q w) = resolvers w.
Proof. reflexivity. Qed.

(** The handler on a response without a pending entry: it emits, then
    fails on the destructuring. *)
Lemma onMessage_orphan (w : World Q) (message : IMQRPCResponse) :
  resolvers w !! res_to message = None ->
  onMessage message w =
    (w, [Emit (req_method (res_request message)) message], Throws notIterable).
Proof. intros Hn. unfold onMessage. now rewrite Hn. Qed.

Lemma onMessage_pending (w : World Q) (message : IMQRPCResponse) resolve reject :
  resolvers w !! res_to message = Some (resolve, reject) ->
  onMessage message w =
    (set_resolvers (delete (res_to message) (resolvers w)) w,
     [match failed message with
      | Some e => Call reject e
      | None => Call resolve (res_data message)
      end],
     Normal).
Proof.
  intros Hs. unfold onMessage. rewrite Hs.
  now destruct (failed message).
Qed.


(** C1, as the code has it: a response whose [to] names a pending entry
    removes the entry and calls one function once, [reject] with the
    error payload when that payload is truthy, and [resolve] with the
    data otherwise, also when there is an error payload that is falsy; a
    later response with the same [to] calls no promise function and
    leaves the registry as it is. *)
Theorem onMessage_settles_once (w : World Q) (message : IMQRPCResponse)
    (resolve reject : callback) :
  resolvers w !! res_to message = Some (resolve, reject) ->
  let w' := (onMessage message w).1.1 in
  (onMessage message w).2 = Normal /\
  (onMessage message w).1.2 =
    [match res_error message with
     | Some e => if truthy e then Call reject e else Call resolve (res_data message)
     | None => Call resolve (res_data message)
     end] /\
  resolvers w' = delete (res_to message) (resolvers w) /\
  resolvers w' !! res_to message = None /\
  forall again : IMQRPCResponse,
    res_to again = res_to message ->
    settlements (onMessage again w').1.2 = [] /\
    resolvers (onMessage again w').1.1 = resolvers w'.
Proof.
  intros Hs w'. subst w'. rewrite (onMessage_pending _ _ _ _ Hs). cbn [fst snd].
  rewrite resolvers_set_resolvers.
  split; [reflexivity |].
  split; [unfold failed; destruct (res_error message) as [e|];
          [destruct (truthy e) |]; reflexivity |].
  split; [reflexivity |].
  split; [apply lookup_delete_eq |].
  intros again Hto.
  rewrite onMessage_orphan
    by (rewrite resolvers_set_resolvers, Hto; apply lookup_delete_eq).
  split; reflexivity.
Qed.

(** C9: when [send] throws, the promise of this call is rejected with
    what was thrown, nothing else is called, and the registry is as it
    was. *)
Theorem remoteCall_send_throws (w : World Q) (args : list value) (p : nat)
    (q : Q) (err : value) :
  imq_send (imq w) (prepareCall w args).1.1 (prepareCall w args).1.2
           (prepareCall w args).2 (RejectOf p) = (q, inl err) ->
  (remoteCall args p w).1.2 = [Call (RejectOf p) err] /\
  resolvers (remoteCall args p w).1.1 = resolvers w /\
  (forall id, resolvers (remoteCall args p w).1.1 !! id = resolvers w !! id) /\
  (remoteCall args p w).2 = Normal.
Proof.
  intros Hsend. unfold remoteCall.
  destruct (prepareCall w args) as [[to message] delay]. cbn [fst snd] in Hsend.
  rewrite Hsend. cbn [fst snd]. now rewrite resolvers_set_imq.
Qed.

Lemma pop_snoc (rest : list value) (x : value) : pop (rest ++ [x]) = (x, rest).
Proof. unfold pop. now rewrite last_snoc, removelast_last. Qed.

(** C10: the last argument is the method name; what is before it, less
    a delay value in last place, are the arguments of the request, and
    that request is what [send] gets.  [describe] passes its own name in
    last place. *)
Theorem remoteCall_method_is_last (w : World Q) (rest : list value)
    (method : value) (p : nat) :
  let args :=
    match last rest with
    | Some (VDelay _) => removelast rest
    | _ => rest
    end in
  let delay :=
    match last rest with
    | Some (VDelay dl) => dispatchDelay dl
    | _ => zero
    end in
  let message := mkRequest (name w) method args in
  prepareCall w (rest ++ [method]) = (serviceName w, message, delay) /\
  remoteCall (rest ++ [method]) p w =
    match imq_send (imq w) (serviceName w) message delay (RejectOf p) with
    | (q, inr id) =>
        (set_resolvers (<[ id := (ResolveOf p, RejectOf p) ]> (resolvers w))
                       (set_imq q w), [], Normal)
    | (q, inl err) => (set_imq q w, [Call (RejectOf p) err], Normal)
    end /\
  describe rest p w = remoteCall (rest ++ [VString "describe"]) p w.
Proof.
  intros args delay message.
  assert (prepareCall w (rest ++ [method]) = (serviceName w, message, delay)) as Hp.
  { unfold prepareCall. rewrite pop_snoc. subst args delay message.
    destruct (last rest) as [[]|]; reflexivity. }
  split; [exact Hp |]. split; [| reflexivity].
  unfold remoteCall. now rewrite Hp.
Qed.

End Correlation.

Section Orphans.

Import Client.

Context {Q : Type} `{IMessageQueue Q}.

(** C2 on the code: a response without a pending entry is emitted under
    the method name of its request, and then the handler throws instead
    of completing. *)
Theorem orphan_response_throws (w : World Q) (message : IMQRPCResponse) :
  resolvers w !! res_to message = None ->
  (onMessage message w).1.2 = [Emit (req_method (res_request message)) message] /\
  (onMessage message w).2 = Throws notIterable /\
  (onMessage message w).1.1 = w.
Proof. intros Hn. now rewrite (onMessage_orphan _ _ Hn). Qed.

End Orphans.

Lemma orphan_response_throws_witness :
  MemQueue.onePending !! "msg-9" = None /\
  Client.onMessage MemQueue.orphanResponse
    (MemQueue.demo MemQueue.subscribedQueue MemQueue.onePending) =
  (MemQueue.demo MemQueue.subscribedQueue MemQueue.onePending,
   [Client.Emit (Client.VString "find") MemQueue.orphanResponse],
   Client.Throws Client.notIterable).
Proof.
  assert (MemQueue.onePending !! "msg-9" = None) as Hn by reflexivity.
  split; [exact Hn |].
  pose proof (orphan_response_throws
                (MemQueue.demo MemQueue.subscribedQueue MemQueue.onePending)
                MemQueue.orphanResponse Hn) as (He & Ht & Hw).
  destruct (Client.onMessage _ _) as [[w effs] out]. cbn [fst snd] in *.
  now subst.
Defined.

Lemma onMessage_settles_once_witness :
  MemQueue.onePending !! "msg-0" = Some (Client.ResolveOf 7, Client.RejectOf 7) /\
  (Client.onMessage MemQueue.errorResponse
     (MemQueue.demo MemQueue.subscribedQueue MemQueue.onePending)).1.2 =
    [Client.Call (Client.RejectOf 7) (Client.VError "Error" "not found")] /\
  Client.resolvers
    (Client.onMessage MemQueue.errorResponse
       (MemQueue.demo MemQueue.subscribedQueue MemQueue.onePending)).1.1
    !! "msg-0" = None.
Proof.
  assert (MemQueue.onePending !! "msg-0"
          = Some (Client.ResolveOf 7, Client.RejectOf 7)) as Hs by reflexivity.
  split; [exact Hs |].
  pose proof (onMessage_settles_once
                (MemQueue.demo MemQueue.subscribedQueue MemQueue.onePending)
                MemQueue.errorResponse _ _ Hs) as (_ & He & _ & Hn & _).
  split; [exact He | exact Hn].
Defined.

Lemma remoteCall_send_throws_witness :
  (Client.remoteCall [Client.VNumber (Delay.ofZ 3); Client.VString "find"] 8
     (MemQueue.demo (MemQueue.failing (Client.VError "Error" "queue down"))
                    MemQueue.onePending)).1.2 =
    [Client.Call (Client.RejectOf 8) (Client.VError "Error" "queue down")] /\
  Client.resolvers
    (Client.remoteCall [Client.VNumber (Delay.ofZ 3); Client.VString "find"] 8
       (MemQueue.demo (MemQueue.failing (Client.VError "Error" "queue down"))
                      MemQueue.onePending)).1.1 = MemQueue.onePending.
Proof.
  pose proof (remoteCall_send_throws
                (MemQueue.demo (MemQueue.failing (Client.VError "Error" "queue down"))
                               MemQueue.onePending)
                [Client.VNumber (Delay.ofZ 3); Client.VString "find"] 8
                (MemQueue.failing (Client.VError "Error" "queue down"))
                (Client.VError "Error" "queue down") eq_refl) as (He & Hr & _).
  split; [exact He | exact Hr].
Defined.

(** ** The in-memory queue meets the contract *)

#[global] Instance memQueue_contract : Contract.QueueContract MemQueue.t.
Proof.
  split; try reflexivity.
  - intros [o n [ch|] r d e] Hs; [discriminate | reflexivity].
Qed.

(** ** destroy *)

Section Lifecycle.

Import Client Contract.

Context {Q : Type} {HQ : IMessageQueue Q} {HC : QueueContract Q}.



(** The world [destroy] leaves behind. *)
Lemma destroy_result (w : World Q) :
  destroy w =
    (mkWorld (baseName w) (clientId w) (name w) (serviceName w)
             (imq_destroy (imq_unsubscribe (imq w)).1).1
             (resolvers w) ∅ (handling w)
             (forgetPid (baseName w) (clientId w) (pids w)),
     [], Normal).
Proof.
  unfold destroy, andThen, onQueue, pure.
  pose proof (unsubscribe_completes (imq w)) as H1.
  destruct (imq_unsubscribe (imq w)) as [q1 o1]. cbn [fst snd] in *. subst o1.
  cbn. pose proof (destroy_completes q1) as H2.
  destruct (imq_destroy q1) as [q2 o2]. cbn [fst snd] in *. subst o2.
  reflexivity.
Qed.



End Lifecycle.


(** ** getDescription *)

Section FetchFacts.

Import Client Contract Fetch.

Context {Q : Type} {HQ : IMessageQueue Q} {HC : QueueContract Q}.

Lemma construct_generator (svc nm : option string) (uuid : string) (newId : nat)
    (registry : gset (string * nat)) :
  exists w : World Q,
    construct "GeneratorClient" svc nm uuid newId registry = inr w /\
    handling w = false.
Proof.
  unfold construct.
  change (String.eqb "GeneratorClient" "IMQClient") with false.
  eexists. split; reflexivity.
Qed.

(** When the executor has armed the timeout, the transient client exists
    with its handler installed and the returned promise is pending. *)
Lemma begin_armed (name uuid : string) (newId : nat) (registry : gset (string * nat)) :
  timerArmed (begin name uuid newId registry) = true ->
  exists w : World Q,
    client (begin name uuid newId registry) = Some w /\
    handling w = true /\
    outcome (begin name uuid newId registry) = None /\
    target (begin name uuid newId registry) = name.
Proof.
  unfold begin.
  destruct (construct_generator (Some name) (Some (name ++ "Client")%string)
              uuid newId registry) as (w0 & -> & _).
  unfold start, andThen, pure, onQueue. cbn [imq set_handling].
  destruct (imq_start (imq w0)) as [q1 [|e]]; cbn; [| discriminate].
  destruct (imq_send _ _ _ _ _) as [q2 [err|id]]; cbn; intros _;
    eexists; repeat split.
Qed.




End FetchFacts.



(** ** Examples *)

Example remoteCall_delayed :
  MemQueue.outbox
    (Client.imq
       (Client.remoteCall MemQueue.delayedCall 8
          (MemQueue.demo MemQueue.subscribedQueue ∅)).1.1) =
  [("Demo",
    Client.mkRequest "DemoClient-host-1:client" (Client.VString "find")
      [Client.VNumber (Delay.ofZ 3)],
    Delay.ofZ 2000)].
Proof. reflexivity. Qed.

Example clientName_ex1 : Generator.clientName "UserService" = "UserClient".
Proof. reflexivity. Qed.
Example clientName_ex2 : Generator.clientName "Auth" = "AuthClient".
Proof. reflexivity. Qed.
Example clientName_ex3 : Generator.clientName "ServiceBus" = "ServiceBusClient".
Proof. reflexivity. Qed.
Example namespaceName_ex1 : Generator.namespaceName "UserService" = "userService".
Proof. reflexivity. Qed.
Example retType_ex1 :
  Generator.generatedReturnType "Promise<number>" = "Promise<number>".
Proof. reflexivity. Qed.
Example wrapDepth_ex1 : Generator.wrapDepth "Promise<Promise<number>>" = 2.
Proof. reflexivity. Qed.
Example wrapDepth_ex2 : Generator.wrapDepth "Promise<number> | null" = 0.
Proof. reflexivity. Qed.
Example collapse_ex1 :
  Js.collapseSpaces false "a   b c  " = "a b c ".
Proof. reflexivity. Qed.

(** * Further properties *)

(** ** White space and line breaks *)

Section Whitespace.

Import Text.

Lemma collapse_run_head (s : string) :
  Js.headIsSpace (Js.collapseSpaces true s) = false.
Proof.
  induction s as [|c s IH]; [reflexivity |].
  cbn [Js.collapseSpaces]. destruct (Js.isSpace c) eqn:Hc; [exact IH |].
  cbn [Js.headIsSpace]. exact Hc.
Qed.

Lemma collapse_head (s : string) :
  Js.headIsSpace (Js.collapseSpaces false s) = Js.headIsSpace s.
Proof.
  destruct s as [|c s]; [reflexivity |]. cbn [Js.collapseSpaces Js.headIsSpace].
  destruct (Js.isSpace c) eqn:Hc; cbn [andb]; [| exact Hc].
  destruct (Js.headIsSpace s); [reflexivity | exact Hc].
Qed.

Lemma collapse_noDoubleSpace (s : string) :
  noDoubleSpace (Js.collapseSpaces true s) = true /\
  noDoubleSpace (Js.collapseSpaces false s) = true.
Proof.
  induction s as [|c s [IHt IHf]]; [split; reflexivity |].
  cbn [Js.collapseSpaces]. split.
  - destruct (Js.isSpace c) eqn:Hc; [exact IHt |].
    cbn [noDoubleSpace]. now rewrite Hc, IHf.
  - destruct (Js.isSpace c) eqn:Hc; cbn [andb].
    + destruct (Js.headIsSpace s) eqn:Hs; cbn [noDoubleSpace].
      * now rewrite collapse_run_head, andb_false_r, IHt.
      * now rewrite collapse_head, Hs, andb_false_r, IHf.
    + cbn [noDoubleSpace]. now rewrite Hc, IHf.
Qed.

Lemma collapse_fixed (s : string) :
  noDoubleSpace s = true -> Js.collapseSpaces false s = s.
Proof.
  induction s as [|c s IH]; [reflexivity |].
  cbn [noDoubleSpace Js.collapseSpaces]. intros Hn.
  apply andb_prop in Hn as [Hh Hr]. apply negb_true_iff in Hh.
  now rewrite Hh, IH.
Qed.

(** X1: After [replace(/\s{2,}/g, ' ')] no white space character is followed
    by another one, and a second replacement changes nothing. *)
Theorem collapseSpaces_normal (s : string) :
  noDoubleSpace (Js.collapseSpaces false s) = true /\
  Js.collapseSpaces false (Js.collapseSpaces false s) = Js.collapseSpaces false s.
Proof.
  pose proof (proj2 (collapse_noDoubleSpace s)) as Hn.
  split; [exact Hn | now apply collapse_fixed].
Qed.

Lemma replaceNewlines_cons (c : ascii) (s : string) :
  Js.replaceNewlines (String c s) =
  if Ascii.eqb c Js.LF then String " " (Js.replaceNewlines s)
  else if Ascii.eqb c Js.CR then
    match s with
    | String d s'' =>
        if Ascii.eqb d Js.LF then String " " (Js.replaceNewlines s'')
        else String c (Js.replaceNewlines s)
    | "" => String c ""
    end
  else String c (Js.replaceNewlines s).
Proof. reflexivity. Qed.

Lemma replaceNewlines_facts (s : string) :
  (hasLF (Js.replaceNewlines s) = false /\
   String.length (Js.replaceNewlines s) <= String.length s /\
   (hasLF s = false -> Js.replaceNewlines s = s)) /\
  forall c,
    hasLF (Js.replaceNewlines (String c s)) = false /\
    String.length (Js.replaceNewlines (String c s)) <= S (String.length s) /\
    (hasLF (String c s) = false -> Js.replaceNewlines (String c s) = String c s).
Proof.
  induction s as [|d s [[IH1 [IH2 IH3]] IHc]].
  - split; [repeat split; auto |]. intros c. rewrite replaceNewlines_cons.
    cbn [hasLF]. destruct (Ascii.eqb c Js.LF) eqn:Hc.
    + repeat split; [cbn; lia | discriminate].
    + destruct (Ascii.eqb c Js.CR); cbn [hasLF String.length Js.replaceNewlines];
        rewrite ?Hc; repeat split; lia.
  - split; [apply IHc |]. intros c. rewrite replaceNewlines_cons.
    destruct (IHc d) as (Hd1 & Hd2 & Hd3).
    cbn [hasLF String.length] in *.
    destruct (Ascii.eqb c Js.LF) eqn:Hc; cbn [orb].
    + cbn [hasLF String.length]. repeat split; [exact Hd1 | lia | discriminate].
    + destruct (Ascii.eqb c Js.CR) eqn:Hr.
      * destruct (Ascii.eqb d Js.LF) eqn:Hd; cbn [orb hasLF String.length].
        -- repeat split; [exact IH1 | lia | discriminate].
        -- rewrite Hc. cbn [orb]. repeat split; [exact Hd1 | lia |].
           intros Hn. now rewrite Hd3.
      * cbn [hasLF String.length]. rewrite Hc. cbn [orb].
        repeat split; [exact Hd1 | lia |]. intros Hn. now rewrite Hd3.
Qed.

(** X2: After [replace(/\r?\n/g, ' ')] the text has no line feed and is not
    longer than before; a text without line feed is left as it is. *)
Theorem replaceNewlines_no_line_feed (s : string) :
  hasLF (Js.replaceNewlines s) = false /\
  String.length (Js.replaceNewlines s) <= String.length s /\
  (hasLF s = false -> Js.replaceNewlines s = s).
Proof. exact (proj1 (replaceNewlines_facts s)). Qed.

Lemma replaceNewlines_no_line_feed_witness :
  hasLF "Promise<string>" = false /\
  Js.replaceNewlines "Promise<string>" = "Promise<string>".
Proof.
  split; [reflexivity |].
  exact (proj2 (proj2 (replaceNewlines_no_line_feed "Promise<string>")) eq_refl).
Defined.

Lemma collapse_keeps_no_LF (b : bool) (s : string) :
  hasLF s = false -> hasLF (Js.collapseSpaces b s) = false.
Proof.
  revert b. induction s as [|c s IH]; intros b; [reflexivity |].
  cbn [hasLF Js.collapseSpaces]. intros Hn.
  apply orb_false_iff in Hn as [Hc Hs].
  destruct b.
  - destruct (Js.isSpace c); [now apply IH |].
    cbn [hasLF]. now rewrite Hc, IH.
  - destruct (Js.isSpace c && Js.headIsSpace s); cbn [hasLF].
    + now rewrite IH.
    + now rewrite Hc, IH.
Qed.

Lemma hasLF_append (a b : string) : hasLF (a ++ b) = hasLF a || hasLF b.
Proof.
  induction a as [|c a IH]; [reflexivity |].
  cbn [String.append hasLF]. now rewrite IH, orb_assoc.
Qed.

Lemma noDoubleSpace_closing (r : string) :
  noDoubleSpace (r ++ ">") = noDoubleSpace r.
Proof.
  induction r as [|c r IH]; [reflexivity |].
  cbn [String.append noDoubleSpace]. rewrite IH. f_equal. f_equal. f_equal.
  now destruct r.
Qed.

(** X3: The return type in a generated signature is on one line and has no
    run of white space, whatever the declared type text is. *)
Theorem return_type_on_one_line (tsType : string) :
  hasLF (Generator.generatedReturnType tsType) = false /\
  noDoubleSpace (Generator.generatedReturnType tsType) = true.
Proof.
  assert (hasLF (Generator.retTypeOf tsType) = false /\
          noDoubleSpace (Generator.retTypeOf tsType) = true) as [Hl Hn].
  { unfold Generator.retTypeOf.
    destruct (String.eqb _ "Promise"); [split; reflexivity |]. split.
    - apply collapse_keeps_no_LF, replaceNewlines_facts.
    - apply collapse_noDoubleSpace. }
  unfold Generator.generatedReturnType, Generator.promisedType.
  destruct (negb _); [| split; assumption]. split.
  - rewrite !hasLF_append, Hl. reflexivity.
  - change ("Promise<" ++ Generator.retTypeOf tsType ++ ">")
      with ("Promise<" ++ (Generator.retTypeOf tsType ++ ">")).
    cbn [String.append noDoubleSpace]. rewrite noDoubleSpace_closing, Hn.
    reflexivity.
Qed.

End Whitespace.

(** ** Wrapping and unwrapping a type *)

Section Wrapping.

Import Generator.

Lemma cleanType_unwrapped (t : string) :
  Js.startsWith "Promise<" t = false -> cleanType t = t.
Proof.
  intros Hs. unfold cleanType.
  destruct (stripPrefix "Promise<" t) as [rest|] eqn:Hp; [| reflexivity].
  assert (Js.startsWith "Promise<" t = true) as Habs
    by (apply startsWith_stripPrefix; eauto).
  congruence.
Qed.


(** X4: [promisedType] applied twice is [promisedType] applied once. *)
Theorem promisedType_idempotent (t : string) :
  promisedType (promisedType t) = promisedType t.
Proof.
  assert (forall x, Js.startsWith "Promise<" x = true -> promisedType x = x)
    as Hfix by (intros x Hx; unfold promisedType; now rewrite Hx).
  apply Hfix. unfold promisedType.
  destruct (Js.startsWith "Promise<" t) eqn:Hs; cbn [negb];
    [exact Hs | apply startsWith_append].
Qed.

(** X5: [cleanType] leaves a type that does not begin with [Promise<] as it
    is, and takes off the wrapper that [promisedType] puts around such a
    type when the type is not empty. *)
Theorem cleanType_promisedType (t : string) :
  Js.startsWith "Promise<" t = false ->
  cleanType t = t /\
  (t <> "" -> cleanType (promisedType t) = t).
Proof.
  intros Hs. split; [now apply cleanType_unwrapped |].
  intros Hne. unfold promisedType. rewrite Hs. cbn [negb].
  now apply cleanType_wrapped.
Qed.

Lemma cleanType_promisedType_witness :
  cleanType "number[]" = "number[]" /\
  cleanType (promisedType "number[]") = "number[]".
Proof.
  destruct (cleanType_promisedType "number[]" eq_refl) as [H1 H2].
  split; [exact H1 | apply H2; discriminate].
Defined.


End Wrapping.

(** ** Client names and service names *)

Section ServiceNames.

Import Generator Client.

Lemma stripClientSuffix_cons (c : ascii) (s : string) :
  stripClientSuffix (String c s) =
  if String.eqb (String c s) "Client" then ""
  else String c (stripClientSuffix s).
Proof. reflexivity. Qed.

Lemma longer_than_Client (c : ascii) (p : string) :
  String.eqb (String c (p ++ "Client")) "Client" = false.
Proof.
  apply String.eqb_neq. intros E. apply (f_equal String.length) in E.
  simpl in E. rewrite length_append in E. simpl in E. lia.
Qed.

Lemma stripClientSuffix_suffix (p : string) :
  stripClientSuffix (p ++ "Client") = p.
Proof.
  induction p as [|c p IH]; [reflexivity |].
  change (String c p ++ "Client") with (String c (p ++ "Client")).
  now rewrite stripClientSuffix_cons, longer_than_Client, IH.
Qed.

Lemma replaceServiceSuffix_shape (s : string) :
  exists p, replaceServiceSuffix s = p ++ "Client" /\
            (s = p \/ s = p ++ "Service").
Proof.
  induction s as [|c s (p & Hp & Hs)].
  - exists "". split; [reflexivity | now left].
  - rewrite replaceServiceSuffix_cons.
    destruct (String.eqb_spec (String c s) "Service") as [E|_].
    + exists "". split; [reflexivity | now right].
    + exists (String c p). rewrite Hp. split; [reflexivity |].
      destruct Hs as [-> | ->]; [now left | now right].
Qed.

(** X7: A client name is a stem followed by [Client], and the service name
    is that stem or that stem followed by [Service]. *)
Theorem clientName_shape (serviceName : string) :
  exists stem,
    clientName serviceName = stem ++ "Client" /\
    (serviceName = stem \/ serviceName = stem ++ "Service").
Proof. apply replaceServiceSuffix_shape. Qed.

(** X8: A service whose name does not end in [Service] and the service of
    that name followed by [Service] are two services with one client
    name. *)
Theorem clientName_collision (stem : string) :
  (forall p, stem <> p ++ "Service") ->
  clientName (stem ++ "Service") = clientName stem /\
  stem ++ "Service" <> stem.
Proof.
  intros Hno. unfold clientName. split.
  - now rewrite replaceServiceSuffix_suffix, replaceServiceSuffix_other.
  - intros E. apply (f_equal String.length) in E.
    rewrite length_append in E. simpl in E. lia.
Qed.

Lemma clientName_collision_witness :
  clientName "UserService" = clientName "User" /\ "UserService" <> "User".
Proof.
  refine (clientName_collision "User" _).
  intros p E. apply (f_equal String.length) in E.
  rewrite length_append in E. simpl in E. lia.
Defined.

Context {Q : Type} `{IMessageQueue Q}.

(** X9: A client of the generated class, constructed without a service name
    and without a name of its own, addresses the stem of its class name:
    the service the class was generated for when that does not end in
    [Service], and that name without the [Service] when it does. *)
Theorem generated_client_default_service (service uuid : string) (newId : nat)
    (registry : gset (string * nat)) (w : World Q) :
  construct (clientName service) None None uuid newId registry = inr w ->
  (forall p, service = p ++ "Service" -> serviceName w = p) /\
  ((forall p, service <> p ++ "Service") -> serviceName w = service).
Proof.
  unfold construct.
  destruct (String.eqb (clientName service) "IMQClient"); [discriminate |].
  intros [= <-]. cbn [serviceName]. unfold clientName. split.
  - intros p ->. now rewrite replaceServiceSuffix_suffix, stripClientSuffix_suffix.
  - intros Hno. now rewrite replaceServiceSuffix_other, stripClientSuffix_suffix.
Qed.

End ServiceNames.

Lemma generated_client_default_service_witness :
  exists w : Client.World MemQueue.t,
    Client.construct (Generator.clientName "UserService") None None "host" 1 ∅
      = inr w /\
    Client.serviceName w = "User".
Proof.
  eexists. split; [reflexivity |].
  exact (proj1 (generated_client_default_service (Q := MemQueue.t)
                  "UserService" "host" 1 ∅ _ eq_refl) "User" eq_refl).
Defined.

(** ** Parameters and methods of the generated class *)

Section Methods.

Import Generator Stub.
Local Open Scope list_scope.

(** X10: Looking at a parameter list a second time adds nothing: the list is
    the declared one followed by at most one parameter, and a second pass
    over it leaves it as it is. *)
Theorem withDelay_idempotent (args : list ArgDescription) :
  withDelay (withDelay args) = withDelay args /\
  exists extra, withDelay args = args ++ extra /\ length extra <= 1.
Proof.
  destruct (last args) as [lastArg|] eqn:Hl.
  - rewrite (withDelay_last _ _ Hl).
    destruct (String.eqb (arg_type lastArg) "IMQDelay") eqn:Ht.
    + split; [now rewrite (withDelay_last _ _ Hl), Ht |].
      exists []. rewrite app_nil_r. split; [reflexivity | simpl; lia].
    + split; [| exists [delayArg]; split; [reflexivity | simpl; lia]].
      now rewrite (withDelay_last (args ++ [delayArg]) delayArg (last_snoc _ _)).
  - apply last_None in Hl. subst args. split; [reflexivity |].
    exists []. split; [reflexivity | simpl; lia].
Qed.

Lemma renderParams_cons (arg : ArgDescription) (rest : list ArgDescription) :
  renderParams (arg :: rest) =
    (renderParam arg ++
     match rest with [] => "" | _ :: _ => ", " end ++ renderParams rest)%string.
Proof.
  cbn [renderParams]. unfold renderParam. now rewrite !append_assoc.
Qed.

Lemma renderParams_snoc (args : list ArgDescription) (arg : ArgDescription) :
  renderParams (args ++ [arg]) =
    (renderParams args ++
     match args with [] => "" | _ :: _ => ", " end ++ renderParam arg)%string.
Proof.
  induction args as [|a args IH].
  - cbn [app]. rewrite renderParams_cons. cbn [renderParams].
    now rewrite append_empty_r.
  - change ((a :: args) ++ [arg]) with (a :: (args ++ [arg])).
    rewrite !renderParams_cons, IH. destruct args as [|b args].
    + cbn [app renderParams String.append]. now rewrite append_empty_r.
    + cbn [app]. now rewrite !append_assoc.
Qed.

(** X11: For a method that declares arguments and does not end with a delay,
    the generated parameter list is the declared one followed by
    [, delay?: IMQDelay]. *)
Theorem declared_parameters_then_delay (args : list ArgDescription)
    (lastArg : ArgDescription) :
  last args = Some lastArg ->
  arg_type lastArg <> "IMQDelay" ->
  renderParams (withDelay args) =
    (renderParams args ++ ", delay?: IMQDelay")%string.
Proof.
  intros Hl Ht. rewrite (withDelay_last _ _ Hl).
  destruct (String.eqb_spec (arg_type lastArg) "IMQDelay"); [contradiction |].
  rewrite renderParams_snoc. destruct args; [discriminate | reflexivity].
Qed.

Lemma declared_parameters_then_delay_witness :
  renderParams (withDelay (arguments addMethod)) =
    "a: number, b: number, delay?: IMQDelay"%string.
Proof.
  refine (declared_parameters_then_delay (arguments addMethod)
            (mkArg "" "b" "number" "number" false) eq_refl _).
  discriminate.
Defined.

End Methods.

(** ** Delays that are not finite *)

Section DelayEdges.

Import Delay.

(** X13: A timer that is NaN or infinite gives the delay 0 in every unit. *)
Theorem not_finite_timer_gives_no_delay (t : number) (u : Unit) :
  isFinite t = false -> dispatchDelay (mkDelay t u) = zero.
Proof.
  destruct t as [sx|sx| |sx mx ex]; try discriminate; intros _;
    destruct u; try destruct sx; reflexivity.
Qed.

Lemma not_finite_timer_gives_no_delay_witness :
  dispatchDelay (mkDelay (S754_infinity true) U_h) = zero.
Proof. exact (not_finite_timer_gives_no_delay (S754_infinity true) U_h eq_refl). Defined.

End DelayEdges.

(** ** Calls and their responses *)

Section CallsAndResponses.

Import Delay Client.
Local Open Scope list_scope.

Context {Q : Type} {HQ : IMessageQueue Q}.

Lemma set_resolvers_same (w : World Q) : set_resolvers (resolvers w) w = w.
Proof. now destruct w. Qed.

Lemma remoteCall_cases (w : World Q) (args : list value) (p : nat) :
  remoteCall args p w =
    match imq_send (imq w) (prepareCall w args).1.1 (prepareCall w args).1.2
                   (prepareCall w args).2 (RejectOf p) with
    | (q, inr id) =>
        (set_resolvers (<[ id := (ResolveOf p, RejectOf p) ]> (resolvers w))
                       (set_imq q w), [], Normal)
    | (q, inl err) => (set_imq q w, [Call (RejectOf p) err], Normal)
    end.
Proof.
  unfold remoteCall. now destruct (prepareCall w args) as [[to message] delay].
Qed.

(** The world after the handler, whether there was an entry or not. *)
Lemma onMessage_world (w : World Q) (message : IMQRPCResponse) :
  (onMessage message w).1.1 =
    set_resolvers (delete (res_to message) (resolvers w)) w.
Proof.
  destruct (resolvers w !! res_to message) as [[resolve reject]|] eqn:Hl.
  - now rewrite (onMessage_pending _ _ _ _ Hl).
  - rewrite (onMessage_orphan _ _ Hl), delete_id by assumption.
    symmetry. apply set_resolvers_same.
Qed.

(** What the handler does and how it completes depends on the world
    through the entry under the response's id only. *)
Lemma onMessage_by_entry (w w' : World Q) (message : IMQRPCResponse) :
  resolvers w' !! res_to message = resolvers w !! res_to message ->
  (onMessage message w').1.2 = (onMessage message w).1.2 /\
  (onMessage message w').2 = (onMessage message w).2.
Proof.
  intros He. unfold onMessage. rewrite He.
  destruct (resolvers w !! res_to message) as [[resolve reject]|];
    [destruct (failed message) |]; split; reflexivity.
Qed.

(** X14: A call whose message the transport accepts is registered under the
    id the transport returns; the response to that id then calls the
    function of this call's promise, [reject] when its error payload is
    truthy and [resolve] otherwise, and takes the entry out again.  When
    the id was not in use the registry is back to what it was; when it
    was, the entry it had is gone without having been called. *)
Theorem call_then_response (w : World Q) (args : list value) (p : nat)
    (q : Q) (id : string) (message : IMQRPCResponse) :
  imq_send (imq w) (prepareCall w args).1.1 (prepareCall w args).1.2
           (prepareCall w args).2 (RejectOf p) = (q, inr id) ->
  res_to message = id ->
  resolvers (remoteCall args p w).1.1
    = <[ id := (ResolveOf p, RejectOf p) ]> (resolvers w) /\
  (onMessage message (remoteCall args p w).1.1).1.2 =
    [match failed message with
     | Some e => Call (RejectOf p) e
     | None => Call (ResolveOf p) (res_data message)
     end] /\
  resolvers (onMessage message (remoteCall args p w).1.1).1.1
    = delete id (resolvers w) /\
  (resolvers w !! id = None ->
   resolvers (onMessage message (remoteCall args p w).1.1).1.1 = resolvers w).
Proof.
  intros Hsend <-. rewrite remoteCall_cases, Hsend. cbn [fst snd].
  rewrite resolvers_set_resolvers.
  set (w1 := set_resolvers _ _).
  assert (resolvers w1 !! res_to message = Some (ResolveOf p, RejectOf p)) as Hl
    by (unfold w1; rewrite resolvers_set_resolvers; apply lookup_insert_eq).
  rewrite (onMessage_pending _ _ _ _ Hl). cbn [fst snd].
  unfold w1. rewrite !resolvers_set_resolvers, delete_insert_eq.
  repeat split. intros Hfresh. now apply delete_id.
Qed.

(** X16: Responses to different ids can come in either order: the registry
    at the end is the same, and each response is handled as it would
    have been alone. *)
Theorem responses_commute (w : World Q) (m1 m2 : IMQRPCResponse) :
  res_to m1 <> res_to m2 ->
  (onMessage m2 (onMessage m1 w).1.1).1.1 = (onMessage m1 (onMessage m2 w).1.1).1.1 /\
  (onMessage m2 (onMessage m1 w).1.1).1.2 = (onMessage m2 w).1.2 /\
  (onMessage m1 (onMessage m2 w).1.1).1.2 = (onMessage m1 w).1.2 /\
  (onMessage m2 (onMessage m1 w).1.1).2 = (onMessage m2 w).2 /\
  (onMessage m1 (onMessage m2 w).1.1).2 = (onMessage m1 w).2.
Proof.
  intros Hne.
  assert (forall a b : IMQRPCResponse, res_to a <> res_to b ->
            resolvers (onMessage a w).1.1 !! res_to b = resolvers w !! res_to b)
    as Hother.
  { intros a b Hab. rewrite onMessage_world, resolvers_set_resolvers.
    now apply lookup_delete_ne. }
  split.
  - rewrite !onMessage_world, !resolvers_set_resolvers.
    rewrite delete_delete. now destruct w.
  - destruct (onMessage_by_entry w _ m2 (Hother m1 m2 Hne)) as [E2 C2].
    destruct (onMessage_by_entry w _ m1 (Hother m2 m1 (not_eq_sym Hne))) as [E1 C1].
    now repeat split.
Qed.

End CallsAndResponses.

Lemma responses_commute_witness :
  (Client.onMessage Faulty.secondResponse
     (Client.onMessage MemQueue.okResponse
        (MemQueue.demo MemQueue.subscribedQueue Faulty.twoPending)).1.1).1.1 =
  (Client.onMessage MemQueue.okResponse
     (Client.onMessage Faulty.secondResponse
        (MemQueue.demo MemQueue.subscribedQueue Faulty.twoPending)).1.1).1.1.
Proof.
  refine (proj1 (responses_commute
                   (MemQueue.demo MemQueue.subscribedQueue Faulty.twoPending)
                   MemQueue.okResponse Faulty.secondResponse _)).
  discriminate.
Defined.

Lemma call_then_response_witness :
  Client.resolvers
    (Client.onMessage MemQueue.describeResponse
       (Client.remoteCall MemQueue.delayedCall 8
          (MemQueue.demo (MemQueue.create "q") ∅)).1.1).1.1 = ∅ /\
  (Client.onMessage MemQueue.describeResponse
     (Client.remoteCall MemQueue.delayedCall 8
        (MemQueue.demo (MemQueue.create "q") ∅)).1.1).1.2 =
    [Client.Call (Client.ResolveOf 8) (Client.VJson "{}")].
Proof.
  destruct (call_then_response (HQ := MemQueue.queue)
              (MemQueue.demo (MemQueue.create "q") ∅) MemQueue.delayedCall 8
              _ "msg-0" MemQueue.describeResponse eq_refl eq_refl)
    as (_ & He & _ & Hr).
  split; [exact (Hr eq_refl) | exact He].
Defined.

(** ** What destroy leaves alone *)

Section DestroyEdges.

Import Client.
Local Open Scope list_scope.

Context {Q : Type} {HQ : IMessageQueue Q}.

(** X18: When releasing the subscription throws, [destroy] throws the same
    and does nothing more: the listeners and the registered identities
    are as before and the queue is not destroyed. *)
Theorem destroy_stops_at_unsubscribe_failure (w : World Q) (e : value) :
  snd (imq_unsubscribe (imq w)) = Throws e ->
  destroy w = (set_imq (fst (imq_unsubscribe (imq w))) w, [], Throws e).
Proof.
  intros He. unfold destroy, andThen, onQueue, pure.
  destruct (imq_unsubscribe (imq w)) as [q1 o1]. cbn [fst snd] in *.
  now subst o1.
Qed.

End DestroyEdges.

Lemma destroy_stops_at_unsubscribe_failure_witness :
  Client.destroy (H := Faulty.queue (Faulty.mkFaults false false true))
    (MemQueue.demo MemQueue.subscribedQueue MemQueue.onePending) =
  (MemQueue.demo MemQueue.subscribedQueue MemQueue.onePending, [],
   Client.Throws Faulty.down).
Proof.
  exact (destroy_stops_at_unsubscribe_failure
           (HQ := Faulty.queue (Faulty.mkFaults false false true))
           (MemQueue.demo MemQueue.subscribedQueue MemQueue.onePending)
           Faulty.down eq_refl).
Defined.

(** ** Responses in sequence *)

Section Sequences.

Import Client Session.
Local Open Scope list_scope.

Context {Q : Type}.

Lemma settlements_app (a b : list effect) :
  settlements (a ++ b) = settlements a ++ settlements b.
Proof. apply List.filter_app. Qed.

Lemma handleAll_cons (message : IMQRPCResponse) (rest : list IMQRPCResponse)
    (w : World Q) :
  handleAll (message :: rest) w =
    ((handleAll rest (onMessage message w).1.1).1,
     (onMessage message w).1.2 ++ (handleAll rest (onMessage message w).1.1).2).
Proof.
  cbn [handleAll]. destruct (onMessage message w) as [[w1 e1] o1].
  cbn [fst snd]. now destruct (handleAll rest w1).
Qed.

(** X19: However many responses come, in whatever order and with whatever
    ids: the calls of promise functions made and the entries left in the
    registry add up to the entries there were, and no entry appears that
    was not there. *)
Theorem settlements_are_conserved (messages : list IMQRPCResponse) (w : World Q) :
  length (settlements (handleAll messages w).2)
    + size (resolvers (handleAll messages w).1) = size (resolvers w) /\
  forall id entry,
    resolvers (handleAll messages w).1 !! id = Some entry ->
    resolvers w !! id = Some entry.
Proof.
  revert w. induction messages as [|message rest IH]; intros w.
  - split; [reflexivity | auto].
  - rewrite handleAll_cons. cbn [fst snd].
    destruct (IH (onMessage message w).1.1) as [Hcount Hsub].
    rewrite settlements_app, length_app.
    destruct (resolvers w !! res_to message) as [[resolve reject]|] eqn:Hl.
    + rewrite (onMessage_pending _ _ _ _ Hl) in *. cbn [fst snd] in *.
      rewrite resolvers_set_resolvers in *. split.
      * rewrite <- (insert_delete_id _ _ _ Hl) at 3.
        rewrite map_size_insert_None by apply lookup_delete_eq.
        destruct (failed message); cbn [settlements List.filter length]; lia.
      * intros id entry Hin. apply Hsub in Hin.
        now apply lookup_delete_Some in Hin.
    + rewrite (onMessage_orphan _ _ Hl) in *. cbn [fst snd] in *.
      split; [exact Hcount | exact Hsub].
Qed.

(** X20: The handler of the earlier revision calls the same function as the
    present one, [reject] when the error payload is truthy and [resolve]
    otherwise, but keeps the entry, so the same response calls the
    function again; the present handler differs by the deletion only. *)
Theorem legacy_handler_keeps_entry (w : World Q) (message : IMQRPCResponse)
    (resolve reject : callback) :
  resolvers w !! res_to message = Some (resolve, reject) ->
  Legacy.onMessage message w = (w, (onMessage message w).1.2, Normal) /\
  (onMessage message w).1.2 =
    [match failed message with
     | Some e => Call reject e
     | None => Call resolve (res_data message)
     end] /\
  Legacy.onMessage message (Legacy.onMessage message w).1.1
    = Legacy.onMessage message w /\
  (onMessage message w).1.1 =
    set_resolvers (delete (res_to message) (resolvers w))
                  (Legacy.onMessage message w).1.1.
Proof.
  intros Hl. rewrite (onMessage_pending _ _ _ _ Hl). cbn [fst snd].
  assert (Legacy.onMessage message w =
          (w, [match failed message with
               | Some e => Call reject e
               | None => Call resolve (res_data message)
               end], Normal)) as HL.
  { unfold Legacy.onMessage. rewrite Hl. now destruct (failed message). }
  rewrite HL. cbn [fst snd]. rewrite HL. repeat split.
Qed.

End Sequences.

Lemma legacy_handler_keeps_entry_witness :
  Legacy.onMessage MemQueue.okResponse
    (Legacy.onMessage MemQueue.okResponse
       (MemQueue.demo MemQueue.subscribedQueue MemQueue.onePending)).1.1 =
  (MemQueue.demo MemQueue.subscribedQueue MemQueue.onePending,
   [Client.Call (Client.ResolveOf 7) (Client.VJson "{}")], Client.Normal).
Proof.
  destruct (legacy_handler_keeps_entry
              (MemQueue.demo MemQueue.subscribedQueue MemQueue.onePending)
              MemQueue.okResponse _ _ eq_refl) as (H1 & H2 & H3 & _).
  rewrite H3, H1, H2. reflexivity.
Defined.

(** ** The fetch, event by event *)

Lemma faulty_contract (f : Faulty.faults) :
  Faulty.unsubscribeFails f = false ->
  @Contract.QueueContract MemQueue.t (Faulty.queue f).
Proof.
  intros Hu. split; cbn; rewrite ?Hu; try reflexivity.
  intros [o n [ch|] r d e] Hs; [discriminate | reflexivity].
Qed.

Section FetchEdges.

Import Delay Client Contract Fetch FetchRun.
Local Open Scope list_scope.

Context {Q : Type} {HQ : IMessageQueue Q}.

(** The run a fetch starts with, by what [start] and [send] do. *)
Lemma begin_shape (name uuid : string) (newId : nat) (registry : gset (string * nat)) :
  let nm := transientName name uuid newId in
  let world q r :=
    mkWorld (name ++ "Client")%string newId nm name q r ∅ true
            ({[ ((name ++ "Client")%string, newId) ]} ∪ registry) in
  begin name uuid newId registry =
    match imq_start (imq_create nm) with
    | (q1, Throws _) => mkRun name (Some (world q1 ∅)) false None None
    | (q1, Normal) =>
        match imq_send q1 name (mkRequest nm (VString "describe") []) zero
                       (RejectOf describePromise) with
        | (q2, inl _) => mkRun name (Some (world q2 ∅)) true None None
        | (q2, inr id) =>
            mkRun name
              (Some (world q2 (<[ id := (ResolveOf describePromise,
                                         RejectOf describePromise) ]> ∅)))
              true (Some describePromise) None
        end
    end.
Proof.
  intros nm world. unfold begin, construct.
  change (String.eqb "GeneratorClient" "IMQClient") with false.
  assert (String.eqb (name ++ "Client") "" = false) as ->
    by (apply String.eqb_neq; destruct name; discriminate).
  assert ((if String.eqb name "" then stripClientSuffix (name ++ "Client") else name)
          = name) as ->
    by (destruct (String.eqb_spec name "") as [->|_]; reflexivity).
  cbv beta iota. fold (transientName name uuid newId). fold nm.
  unfold start, andThen, pure, onQueue. cbn [imq set_handling].
  destruct (imq_start (imq_create nm)) as [q1 [|e]]; cbn; [| reflexivity].
  destruct (imq_send _ _ _ _ _) as [q2 [err|id]]; reflexivity.
Qed.

(** X21: The transient client of a fetch for [name] is built on
    [<name>Client] and addresses the service [name], also when [name] is
    empty; its [describe] is a request for the method [describe] without
    arguments and without delay. *)
Theorem fetch_targets_service (name uuid : string) (newId : nat)
    (registry : gset (string * nat)) (w : World Q) :
  client (begin name uuid newId registry) = Some w ->
  baseName w = (name ++ "Client")%string /\
  clientId w = newId /\
  Client.name w = transientName name uuid newId /\
  serviceName w = name /\
  handling w = true /\
  prepareCall w ([] ++ [VString "describe"]) =
    (name, mkRequest (transientName name uuid newId) (VString "describe") [], zero).
Proof.
  rewrite begin_shape.
  destruct (imq_start _) as [q1 [|e]];
    [destruct (imq_send _ _ _ _ _) as [q2 [err|id]] |];
    intros [= <-]; repeat split.
Qed.

(** X23: When [start] of the transient client throws, the fetch never
    settles: what was thrown rejects the executor only, which nobody
    handles; the timeout is not armed, and no response and no timer event
    that follows resolves or rejects the returned promise. *)
Theorem failed_start_never_settles (name uuid : string) (newId : nat)
    (registry : gset (string * nat)) (e : value) (events : list event) :
  snd (imq_start (imq_create (transientName name uuid newId))) = Throws e ->
  timerArmed (begin name uuid newId registry) = false /\
  outcome (run events (begin name uuid newId registry)) = None.
Proof.
  intros Hs.
  assert (forall r : Run Q,
            timerArmed r = false /\ awaiting r = None /\ outcome r = None ->
            forall ev, timerArmed (step r ev) = false /\
                       awaiting (step r ev) = None /\
                       outcome (step r ev) = None) as Hstep.
  { intros r (Ht & Ha & Ho) [|message]; cbn [step].
    - unfold timerFires. now rewrite Ht.
    - unfold deliver. destruct (client r) as [w|]; [| now repeat split].
      destruct (handling w); [| now repeat split].
      destruct (onMessage message w) as [[w1 effs] o1]. rewrite Ha.
      now repeat split. }
  assert (timerArmed (begin name uuid newId registry) = false /\
          awaiting (begin name uuid newId registry) = None /\
          outcome (begin name uuid newId registry) = None) as Hinit.
  { rewrite begin_shape.
    destruct (imq_start _) as [q1 o1]. cbn [snd] in Hs. subst o1.
    now repeat split. }
  split; [apply Hinit |].
  revert Hinit. generalize (begin name uuid newId registry).
  unfold run. induction events as [|ev events IH]; intros r Hr.
  - apply Hr.
  - cbn [fold_left]. apply IH. now apply Hstep.
Qed.

Context {HC : QueueContract Q}.

Lemma timerFires_rejects (r : Run Q) (w : World Q) :
  timerArmed r = true -> client r = Some w -> outcome r = None ->
  outcome (timerFires r) = Some (Rejected (timeoutError (target r))).
Proof.
  intros Ht Hc Ho. unfold timerFires. rewrite Ht, Hc, Ho.
  now rewrite destroy_result.
Qed.

Lemma deliver_rejected (r : Run Q) (w : World Q) (message : IMQRPCResponse)
    (p : nat) (e : value) :
  client r = Some w -> handling w = true -> awaiting r = Some p ->
  resolvers w !! res_to message = Some (ResolveOf p, RejectOf p) ->
  failed message = Some e ->
  deliver message r =
    mkRun (target r) (Some (onMessage message w).1.1) (timerArmed r) None (outcome r).
Proof.
  intros Hc Hh Ha Hl He. unfold deliver. rewrite Hc, Hh, Ha.
  rewrite (onMessage_pending _ _ _ _ Hl), He. cbn [settledBy fst snd].
  now rewrite Nat.eqb_refl.
Qed.

(** X24: A truthy error that the service answers to [describe] is not what
    the fetch fails with: it rejects the executor only, which nobody handles;
    the response leaves the fetch pending with the timeout armed, and
    when the timeout fires the fetch fails with the timeout error. *)
Theorem remote_error_is_reported_as_timeout (name uuid : string) (newId : nat)
    (registry : gset (string * nat)) (w : World Q) (message : IMQRPCResponse)
    (e : value) :
  client (begin name uuid newId registry) = Some w ->
  awaiting (begin name uuid newId registry) = Some describePromise ->
  resolvers w !! res_to message
    = Some (ResolveOf describePromise, RejectOf describePromise) ->
  failed message = Some e ->
  outcome (deliver message (begin name uuid newId registry)) = None /\
  timerArmed (deliver message (begin name uuid newId registry)) = true /\
  outcome (timerFires (deliver message (begin name uuid newId registry)))
    = Some (Rejected (timeoutError name)).
Proof.
  intros Hc Ha Hl He.
  assert (timerArmed (begin name uuid newId registry) = true) as Ht.
  { revert Ha. rewrite begin_shape.
    destruct (imq_start _) as [q1 [|x]];
      [destruct (imq_send _ _ _ _ _) as [q2 [err|id]] |];
      try discriminate; reflexivity. }
  destruct (begin_armed _ _ _ _ Ht) as (w' & Hc' & Hh & Ho & Hn).
  assert (w' = w) as -> by congruence.
  rewrite (deliver_rejected _ _ _ _ _ Hc Hh Ha Hl He).
  cbn [outcome timerArmed]. split; [exact Ho |]. split; [exact Ht |].
  erewrite timerFires_rejects; cbn [target timerArmed client outcome];
    [now rewrite Hn | exact Ht | reflexivity | exact Ho].
Qed.

(** X25: What [send] throws on the [describe] of a fetch is not what the fetch
    fails with either: the fetch stays pending with the timeout armed, and
    fails with the timeout error when the timeout fires. *)
Theorem send_failure_is_reported_as_timeout (name uuid : string) (newId : nat)
    (registry : gset (string * nat)) (q1 q2 : Q) (err : value) :
  imq_start (imq_create (transientName name uuid newId)) = (q1, Normal) ->
  imq_send q1 name
    (mkRequest (transientName name uuid newId) (VString "describe") []) zero
    (RejectOf describePromise) = (q2, inl err) ->
  outcome (begin name uuid newId registry) = None /\
  awaiting (begin name uuid newId registry) = None /\
  timerArmed (begin name uuid newId registry) = true /\
  outcome (timerFires (begin name uuid newId registry))
    = Some (Rejected (timeoutError name)).
Proof.
  intros Hs Hsend. rewrite begin_shape, Hs, Hsend.
  repeat split. erewrite timerFires_rejects; reflexivity.
Qed.

End FetchEdges.

Lemma fetch_targets_service_witness :
  exists w : Client.World MemQueue.t,
    Fetch.client (Fetch.begin (Q := MemQueue.t) "" "host" 1 ∅) = Some w /\
    Client.baseName w = "Client" /\
    Client.serviceName w = "".
Proof.
  eexists. split; [reflexivity |].
  pose proof (fetch_targets_service (HQ := MemQueue.queue) "" "host" 1 ∅ _ eq_refl)
    as (Hb & _ & _ & Hs & _).
  split; [exact Hb | exact Hs].
Defined.

Lemma failed_start_never_settles_witness :
  Fetch.outcome
    (FetchRun.run (H := Faulty.queue (Faulty.mkFaults true false false))
       [FetchRun.Delivered MemQueue.describeResponse; FetchRun.TimerFired]
       (Fetch.begin (H := Faulty.queue (Faulty.mkFaults true false false))
          "Foo" "host" 1 ∅))
  = None.
Proof.
  exact (proj2 (failed_start_never_settles
                  (HQ := Faulty.queue (Faulty.mkFaults true false false))
                  "Foo" "host" 1 ∅ Faulty.down
                  [FetchRun.Delivered MemQueue.describeResponse; FetchRun.TimerFired]
                  eq_refl)).
Defined.

Lemma remote_error_is_reported_as_timeout_witness :
  Fetch.outcome
    (Fetch.deliver Faulty.describeFailure
       (Fetch.begin (Q := MemQueue.t) "Foo" "host" 1 ∅)) = None /\
  Fetch.outcome
    (Fetch.timerFires
       (Fetch.deliver Faulty.describeFailure
          (Fetch.begin (Q := MemQueue.t) "Foo" "host" 1 ∅)))
  = Some (Fetch.Rejected (Fetch.timeoutError "Foo")).
Proof.
  destruct (remote_error_is_reported_as_timeout
              (HQ := MemQueue.queue) (HC := memQueue_contract)
              "Foo" "host" 1 ∅ _ Faulty.describeFailure
              (Client.VError "Error" "no access") eq_refl eq_refl eq_refl eq_refl)
    as (Ho & _ & Ht).
  split; [exact Ho | exact Ht].
Defined.

Lemma send_failure_is_reported_as_timeout_witness :
  Fetch.awaiting
    (Fetch.begin (H := Faulty.queue (Faulty.mkFaults false true false))
       "Foo" "host" 1 ∅) = None /\
  Fetch.outcome
    (Fetch.timerFires (H := Faulty.queue (Faulty.mkFaults false true false))
       (Fetch.begin (H := Faulty.queue (Faulty.mkFaults false true false))
          "Foo" "host" 1 ∅))
  = Some (Fetch.Rejected (Fetch.timeoutError "Foo")).
Proof.
  destruct (send_failure_is_reported_as_timeout
              (HQ := Faulty.queue (Faulty.mkFaults false true false))
              (HC := faulty_contract (Faulty.mkFaults false true false) eq_refl)
              "Foo" "host" 1 ∅ _ _ Faulty.down eq_refl eq_refl)
    as (_ & Ha & _ & Ht).
  split; [exact Ha | exact Ht].
Defined.

(** ** The delay and the arguments a request goes out with *)

Section Dispatch.

Import Delay Client.
Local Open Scope list_scope.

(** Rounding yields a zero, a finite value or an infinity of the sign it
    was given, or NaN. *)
Lemma binary_round_aux_sign (sx : bool) (mx ex : Z) (lx : location) :
  binary_round_aux prec emax sx mx ex lx = S754_zero sx \/
  (exists m e, binary_round_aux prec emax sx mx ex lx = S754_finite sx m e) \/
  binary_round_aux prec emax sx mx ex lx = S754_infinity sx \/
  binary_round_aux prec emax sx mx ex lx = S754_nan.
Proof.
  unfold binary_round_aux.
  destruct (shr_fexp prec emax mx ex lx) as [mrs' e'].
  destruct (shr_fexp prec emax _ e' loc_Exact) as [mrs'' e''].
  destruct (shr_m mrs'') as [|m|m]; [now left | | now right; right; right].
  destruct (Z.leb e'' (emax - prec)); [right; left; eauto | now right; right; left].
Qed.

Lemma clampDelay_negative (x : number) :
  x = S754_zero true \/ (exists m e, x = S754_finite true m e) \/
  x = S754_infinity true \/ x = S754_nan ->
  exists s, clampDelay x = S754_zero s.
Proof.
  intros [-> | [(m & e & ->) | [-> | ->]]]; [exists true | exists false ..];
    reflexivity.
Qed.

(** X26: A timer below zero gives a zero delay in every unit. *)
Theorem negative_timer_gives_zero_delay (dl : IMQDelay) :
  lt (timer dl) zero = true ->
  exists s, dispatchDelay dl = S754_zero s.
Proof.
  destruct dl as [t u]. cbn [timer]. unfold dispatchDelay, get_ms. cbn [timer unit].
  destruct t as [sx|[|]| |[|] mx ex]; try discriminate; intros _.
  - apply clampDelay_negative. destruct u; cbn; auto.
  - apply clampDelay_negative.
    destruct u; [right; left; eauto | ..];
      match goal with
      | |- context [mul _ (ofZ ?k)] =>
          let c := eval vm_compute in (ofZ k) in
          change (ofZ k) with c
      end;
      unfold mul, SFmul; cbn [xorb]; apply binary_round_aux_sign.
Qed.

Lemma negative_timer_gives_zero_delay_witness :
  exists s, dispatchDelay (mkDelay (ofZ (-90)) U_m) = S754_zero s.
Proof. exact (negative_timer_gives_zero_delay (mkDelay (ofZ (-90)) U_m) eq_refl). Defined.

Context {Q : Type}.

(** X27: Whatever the arguments of a call are, the delay handed to the
    transport with it is finite, not NaN and not below zero. *)
Theorem transport_delay_is_always_valid (w : World Q) (args : list value) :
  isFinite (prepareCall w args).2 = true /\
  isNaN (prepareCall w args).2 = false /\
  lt (prepareCall w args).2 zero = false.
Proof.
  unfold prepareCall, pop.
  destruct (last (removelast args)) as [[| | | | |dl| |]|]; cbn [fst snd];
    try (repeat split; reflexivity).
  apply clampDelay_range.
Qed.


End Dispatch.

(** ** Whole-number timers *)

Section WholeNumbers.

Import Delay Whole.

Lemma digits2_size (p : positive) : digits2_pos p = Pos.size p.
Proof. induction p; simpl; now rewrite ?IHp. Qed.

Lemma iter_xO_Z (p n : positive) :
  Z.pos (Pos.iter xO p n) = (Z.pos p * 2 ^ Z.pos n)%Z.
Proof.
  induction n using Pos.peano_ind.
  - simpl. lia.
  - rewrite Pos.iter_succ, Pos2Z.inj_xO, IHn, Pos2Z.inj_succ, Z.pow_succ_r by lia. lia.
Qed.

Lemma shl_Z (p : positive) (z : Z) :
  (0 <= z)%Z -> Z.pos (shl p z) = (Z.pos p * 2 ^ z)%Z.
Proof.
  destruct z as [|n|n]; intros Hz; [simpl; lia | apply iter_xO_Z | lia].
Qed.

Lemma digits_iter_xO (p n : positive) :
  Z.pos (digits2_pos (Pos.iter xO p n)) = (Z.pos (digits2_pos p) + Z.pos n)%Z.
Proof.
  induction n using Pos.peano_ind.
  - simpl. lia.
  - rewrite Pos.iter_succ. cbn [digits2_pos]. rewrite Pos2Z.inj_succ, IHn. lia.
Qed.

Lemma digits_shl (p : positive) (z : Z) :
  (0 <= z)%Z -> Z.pos (digits2_pos (shl p z)) = (Z.pos (digits2_pos p) + z)%Z.
Proof.
  destruct z as [|n|n]; intros Hz; [simpl; lia | apply digits_iter_xO | lia].
Qed.

Lemma iter_pos_iter {A} (f : A -> A) (n : positive) (x : A) :
  SpecFloat.iter_pos f n x = Pos.iter f x n.
Proof.
  revert x. induction n as [n IH|n IH|]; intros x; simpl.
  - now rewrite !IH, <- !Pos.iter_swap.
  - now rewrite !IH.
  - reflexivity.
Qed.

Lemma shr_exact (p n : positive) :
  SpecFloat.iter_pos shr_1 n (Build_shr_record (Z.pos (Pos.iter xO p n)) false false)
  = Build_shr_record (Z.pos p) false false.
Proof.
  rewrite iter_pos_iter. induction n using Pos.peano_ind.
  - reflexivity.
  - rewrite Pos.iter_succ_r, Pos.iter_succ. cbn [shr_1 orb]. exact IHn.
Qed.

(** The digits of a positive, by its bounds. *)
Lemma digits_bounds (p : positive) :
  (2 ^ (Z.pos (digits2_pos p) - 1) <= Z.pos p < 2 ^ Z.pos (digits2_pos p))%Z.
Proof.
  rewrite digits2_size. pose proof (Pos.size_le p) as Hle. pose proof (Pos.size_gt p) as Hgt.
  apply Pos2Z.pos_le_pos in Hle. apply Pos2Z.pos_lt_pos in Hgt.
  rewrite Pos2Z.inj_pow in Hle, Hgt.
  split; [| exact Hgt].
  assert (2 ^ Z.pos (Pos.size p) = 2 * 2 ^ (Z.pos (Pos.size p) - 1))%Z as E
    by (rewrite <- Z.pow_succ_r by lia; f_equal; lia).
  lia.
Qed.

Lemma digits_unique (p : positive) (d : Z) :
  (2 ^ (d - 1) <= Z.pos p < 2 ^ d)%Z -> Z.pos (digits2_pos p) = d.
Proof.
  intros [Hlo Hhi]. destruct (digits_bounds p) as [Hlo' Hhi'].
  assert (0 < d)%Z as Hd.
  { destruct (Z.ltb_spec 0 d); [assumption |].
    assert (2 ^ d <= 2 ^ 0)%Z by (destruct (Z.eqb_spec d 0) as [->|]; [lia|rewrite Z.pow_neg_r by lia; lia]).
    simpl in *. lia. }
  destruct (Z.lt_trichotomy (Z.pos (digits2_pos p)) d) as [Hlt | [Heq | Hgt]]; [| exact Heq |].
  - assert (2 ^ Z.pos (digits2_pos p) <= 2 ^ (d - 1))%Z by (apply Z.pow_le_mono_r; lia). lia.
  - assert (2 ^ d <= 2 ^ (Z.pos (digits2_pos p) - 1))%Z by (apply Z.pow_le_mono_r; lia). lia.
Qed.

Lemma fexp_small (d : Z) : (1 <= d)%Z -> fexp prec emax d = (d - 53)%Z.
Proof. intros Hd. unfold fexp, emin, prec, emax. lia. Qed.

Lemma round_shifted (s : bool) (c : positive) (e n : Z) :
  (0 <= n)%Z ->
  fexp prec emax (Z.pos (digits2_pos c) + (e + n)) = (e + n)%Z ->
  (e + n <= emax - prec)%Z ->
  binary_round_aux prec emax s (Z.pos (shl c n)) e loc_Exact = S754_finite s c (e + n).
Proof.
  intros Hn Hc Hb. unfold binary_round_aux. unfold shr_fexp at 1.
  cbn [Zdigits2]. rewrite digits_shl by assumption.
  replace (Z.pos (digits2_pos c) + n + e)%Z with (Z.pos (digits2_pos c) + (e + n))%Z by lia.
  rewrite Hc. replace (e + n - e)%Z with n by lia.
  assert (shr (shr_record_of_loc (Z.pos (shl c n)) loc_Exact) e n
          = (Build_shr_record (Z.pos c) false false, (e + n)%Z)) as ->.
  { destruct n as [|k|k]; [| | lia].
    - cbn [shr shl shr_record_of_loc]. f_equal. lia.
    - cbn [shr shl shr_record_of_loc]. now rewrite shr_exact. }
  cbn [shr_m loc_of_shr_record round_nearest_even].
  unfold shr_fexp. cbn [Zdigits2]. rewrite Hc, Z.sub_diag.
  cbn [shr shr_record_of_loc shr_m].
  apply Z.leb_le in Hb. now rewrite Hb.
Qed.

Lemma digits_le_53 (p : positive) :
  (Z.pos p < 2 ^ 53)%Z -> (1 <= Z.pos (digits2_pos p) <= 53)%Z.
Proof.
  intros Hp. destruct (digits_bounds p) as [Hlo _]. split; [lia |].
  destruct (Z.leb_spec (Z.pos (digits2_pos p)) 53) as [|Hgt]; [assumption |].
  assert (2 ^ 53 <= 2 ^ (Z.pos (digits2_pos p) - 1))%Z by (apply Z.pow_le_mono_r; lia).
  lia.
Qed.

Lemma binary_round_canon (s : bool) (p : positive) :
  (Z.pos p < 2 ^ 53)%Z -> binary_round prec emax s p 0 = canon s p.
Proof.
  intros Hp. pose proof (digits_le_53 p Hp) as Hd. unfold binary_round, canon.
  rewrite Z.add_0_r, fexp_small by lia. set (d := Z.pos (digits2_pos p)) in *.
  assert (shl_align p 0 (d - 53) = (shl p (53 - d), (d - 53)%Z)) as ->.
  { unfold shl_align. rewrite Z.sub_0_r.
    destruct (d - 53)%Z as [|k|k] eqn:Hk; [| lia |].
    - replace (53 - d)%Z with 0%Z by lia. reflexivity.
    - replace (53 - d)%Z with (Z.pos k) by lia. reflexivity. }
  pose proof (round_shifted s (shl p (53 - d)) (d - 53) 0) as Hr.
  rewrite Z.add_0_r in Hr.
  change (shl (shl p (53 - d)) 0) with (shl p (53 - d)) in Hr. apply Hr; [lia | | unfold emax, prec; lia].
  rewrite digits_shl by lia. fold d.
  replace (d + (53 - d) + (d - 53))%Z with d by lia. apply fexp_small. lia.
Qed.

Lemma digits_mul (p k : positive) :
  (Z.pos (digits2_pos p) + Z.pos (digits2_pos k) - 1 <= Z.pos (digits2_pos (p * k)))%Z.
Proof.
  destruct (digits_bounds p) as [Hp _]. destruct (digits_bounds k) as [Hk _].
  destruct (digits_bounds (p * k)) as [_ Hpk]. rewrite Pos2Z.inj_mul in Hpk.
  set (dp := Z.pos (digits2_pos p)) in *. set (dk := Z.pos (digits2_pos k)) in *.
  set (d := Z.pos (digits2_pos (p * k))) in *.
  assert (2 ^ (dp - 1 + (dk - 1)) <= Z.pos p * Z.pos k)%Z as Hlo.
  { rewrite Z.pow_add_r by (unfold dp, dk; lia). apply Z.mul_le_mono_nonneg; try assumption;
      apply Z.pow_nonneg; lia. }
  destruct (Z.leb_spec (dp + dk - 1) d) as [|Hlt]; [assumption |].
  assert (2 ^ d <= 2 ^ (dp - 1 + (dk - 1)))%Z by (apply Z.pow_le_mono_r; lia).
  lia.
Qed.

Lemma mul_canon (s1 s2 : bool) (p k : positive) :
  (Z.pos p * Z.pos k < 2 ^ 53)%Z ->
  mul (canon s1 p) (canon s2 k) = canon (xorb s1 s2) (p * k).
Proof.
  intros Hpk.
  assert (Z.pos p < 2 ^ 53)%Z as Hp by nia.
  assert (Z.pos k < 2 ^ 53)%Z as Hk by nia.
  pose proof (digits_le_53 p Hp) as Hdp. pose proof (digits_le_53 k Hk) as Hdk.
  assert (Z.pos (p * k) < 2 ^ 53)%Z as Hpk' by (rewrite Pos2Z.inj_mul; exact Hpk).
  pose proof (digits_le_53 _ Hpk') as Hd. pose proof (digits_mul p k) as Hm.
  unfold mul, canon, SFmul.
  set (dp := Z.pos (digits2_pos p)) in *. set (dk := Z.pos (digits2_pos k)) in *.
  set (d := Z.pos (digits2_pos (p * k))) in *.
  set (c := shl (p * k) (53 - d)).
  set (n := (53 + d - dp - dk)%Z).
  assert ((shl p (53 - dp) * shl k (53 - dk))%positive = shl c n) as ->.
  { apply Pos2Z.inj. rewrite Pos2Z.inj_mul. unfold c.
    rewrite !shl_Z by (unfold n; lia). rewrite Pos2Z.inj_mul.
    replace (Z.pos p * 2 ^ (53 - dp) * (Z.pos k * 2 ^ (53 - dk)))%Z
      with (Z.pos p * Z.pos k * (2 ^ (53 - dp) * 2 ^ (53 - dk)))%Z by ring.
    rewrite <- (Z.mul_assoc _ (2 ^ (53 - d)) (2 ^ n)). f_equal.
    rewrite <- !Z.pow_add_r by (unfold n; lia). f_equal. unfold n. lia. }
  replace (dp - 53 + (dk - 53))%Z with (d - 53 - n)%Z by (unfold n; lia).
  pose proof (round_shifted (xorb s1 s2) c (d - 53 - n) n) as Hr.
  replace (d - 53 - n + n)%Z with (d - 53)%Z in Hr by lia.
  apply Hr; [unfold n; lia | | unfold emax, prec; lia].
  unfold c. rewrite digits_shl by lia. fold d.
  replace (d + (53 - d) + (d - 53))%Z with d by lia. apply fexp_small. lia.
Qed.

Lemma ofZ_pos (p : positive) : (Z.pos p < 2 ^ 53)%Z -> ofZ (Z.pos p) = canon false p.
Proof. apply binary_round_canon. Qed.

Lemma ofZ_neg (p : positive) : (Z.pos p < 2 ^ 53)%Z -> ofZ (Z.neg p) = canon true p.
Proof. apply binary_round_canon. Qed.

Lemma mul_whole (a k : Z) :
  (0 < k < 2 ^ 53)%Z -> (Z.abs a * k < 2 ^ 53)%Z -> mul (ofZ a) (ofZ k) = ofZ (a * k).
Proof.
  intros Hk Hb. destruct k as [|k|k]; try lia.
  destruct a as [|p|p].
  - rewrite ofZ_pos by lia. reflexivity.
  - cbn [Z.abs] in Hb. assert (Z.pos p < 2 ^ 53)%Z by nia. assert (Z.pos k < 2 ^ 53)%Z by nia.
    rewrite !ofZ_pos by assumption. rewrite mul_canon by assumption.
    symmetry. apply (ofZ_pos (p * k)). now rewrite Pos2Z.inj_mul.
  - cbn [Z.abs] in Hb. assert (Z.pos p < 2 ^ 53)%Z by nia. assert (Z.pos k < 2 ^ 53)%Z by nia.
    rewrite ofZ_neg, ofZ_pos by assumption. rewrite mul_canon by assumption.
    symmetry. apply (ofZ_neg (p * k)). now rewrite Pos2Z.inj_mul.
Qed.

Lemma clampDelay_whole (y : Z) :
  (0 <= y < 2 ^ 53)%Z -> clampDelay (ofZ y) = ofZ y.
Proof.
  intros Hy. destruct y as [|p|p]; [reflexivity | | lia].
  rewrite ofZ_pos by lia. reflexivity.
Qed.

(** X29: A timer that is a whole number gives exactly that number times the
    scale of the unit, as long as the product is below 2^53; a timer
    that is not below zero is dispatched with exactly that delay. *)
Theorem whole_timers_are_exact (n : Z) (u : Unit) :
  (Z.abs n * unitScale u < 2 ^ 53)%Z ->
  get_ms (mkDelay (ofZ n) u) = ofZ (n * unitScale u) /\
  ((0 <= n)%Z -> dispatchDelay (mkDelay (ofZ n) u) = ofZ (n * unitScale u)).
Proof.
  intros Hb.
  assert (get_ms (mkDelay (ofZ n) u) = ofZ (n * unitScale u)) as Hms.
  { unfold get_ms. cbn [timer unit].
    destruct u; cbn [unitScale] in *;
      [now rewrite Z.mul_1_r | apply mul_whole; [lia | exact Hb] ..]. }
  split; [exact Hms |]. intros Hn. unfold dispatchDelay. rewrite Hms.
  apply clampDelay_whole. split; [| lia].
  apply Z.mul_nonneg_nonneg; [exact Hn | destruct u; cbn; lia].
Qed.

Lemma whole_timers_are_exact_witness :
  get_ms (mkDelay (ofZ 90) U_m) = ofZ 5400000 /\
  dispatchDelay (mkDelay (ofZ 90) U_m) = ofZ 5400000.
Proof.
  assert (Z.abs 90 * unitScale U_m < 2 ^ 53)%Z as Hb by (cbn; lia).
  destruct (whole_timers_are_exact 90 U_m Hb) as [Hms Hd].
  split; [exact Hms | apply Hd; lia].
Defined.

End WholeNumbers.

(** ** The delay of a dispatched call *)

Section DispatchedDelay.

Import Delay Client.
Local Open Scope list_scope.

Context {Q : Type}.

(** The delay that [remoteCall] hands to [send] when the argument before
    the method name is a delay value. *)
Lemma prepareCall_delay (w : World Q) (rest : list value) (dl : IMQDelay)
    (method : value) :
  (prepareCall w (rest ++ [VDelay dl; method])).2 = dispatchDelay dl.
Proof.
  unfold prepareCall.
  change (rest ++ [VDelay dl; method]) with (rest ++ [VDelay dl] ++ [method]).
  now rewrite app_assoc, pop_snoc, last_snoc.
Qed.

(** C7: for a call whose argument before the method name is a delay
    value, the delay that [remoteCall] hands to the transport is the
    timer times the scale of the unit when that product is finite and not
    below zero, and 0 otherwise; it is always finite, not NaN and not
    below zero; for the delay values the specification lists it has the
    values listed. *)
Theorem dispatchDelay_spec (w : World Q) (rest : list value) (method : value) :
  (forall dl : IMQDelay,
      valid (timer dl) = true ->
      let product := mul (timer dl) (ofZ (unitScale (unit dl))) in
      let delay := (prepareCall w (rest ++ [VDelay dl; method])).2 in
      get_ms dl = product /\
      delay =
        (if isFinite product && negb (lt product zero) then product else zero) /\
      isFinite delay = true /\
      isNaN delay = false /\
      lt delay zero = false) /\
  (prepareCall w (rest ++ [VDelay (mkDelay (ofZ 1) U_s); method])).2 = ofZ 1000 /\
  (prepareCall w (rest ++ [VDelay (mkDelay (ofZ 2) U_m); method])).2 = ofZ 120000 /\
  (prepareCall w (rest ++ [VDelay (mkDelay (ofZ 1) U_h); method])).2 = ofZ 3600000 /\
  (prepareCall w (rest ++ [VDelay (mkDelay (ofZ 1) U_d); method])).2 = ofZ 86400000 /\
  (prepareCall w (rest ++ [VDelay (mkDelay NaN U_ms); method])).2 = zero /\
  (prepareCall w (rest ++ [VDelay (mkDelay (ofZ (-5)) U_ms); method])).2 = zero /\
  (prepareCall w (rest ++ [VDelay (mkDelay Infinity U_ms); method])).2 = zero.
Proof.
  split; [| rewrite !prepareCall_delay; repeat split].
  intros dl Hv product delay. subst product delay. rewrite prepareCall_delay.
  exact (dispatchDelay_product dl Hv).
Qed.

End DispatchedDelay.

Lemma dispatchDelay_spec_witness :
  Delay.valid (Delay.ofZ 90) = true /\
  (Client.prepareCall (MemQueue.demo MemQueue.subscribedQueue ∅)
     [Client.VNumber (Delay.ofZ 3);
      Client.VDelay (Delay.mkDelay (Delay.ofZ 90) Delay.U_s);
      Client.VString "find"]).2 = Delay.ofZ 90000.
Proof.
  split; [reflexivity |].
  pose proof (proj1 (dispatchDelay_spec
                       (MemQueue.demo MemQueue.subscribedQueue ∅)
                       [Client.VNumber (Delay.ofZ 3)] (Client.VString "find"))
                (Delay.mkDelay (Delay.ofZ 90) Delay.U_s) eq_refl)
    as (_ & Hd & _).
  cbn [app] in Hd. rewrite Hd. reflexivity.
Defined.

(** ** Where two claims fail as stated *)

(** C1 as stated fails: a response to a pending call whose error payload
    is there but is the empty string is resolved with its data; the
    function that rejects is not called. *)
Lemma falsy_error_payload_is_resolved :
  Client.res_error MemQueue.emptyErrorResponse = Some (Client.VString "") /\
  (Client.onMessage MemQueue.emptyErrorResponse
     (MemQueue.demo MemQueue.subscribedQueue MemQueue.onePending)).1.2 =
    [Client.Call (Client.ResolveOf 7) (Client.VJson "{}")] /\
  (Client.onMessage MemQueue.emptyErrorResponse
     (MemQueue.demo MemQueue.subscribedQueue MemQueue.onePending)).1.2 <>
    [Client.Call (Client.RejectOf 7) (Client.VString "")].
Proof. repeat split. discriminate. Qed.

